(** * UI-Code-Generator: geometry, hierarchy builder, alignment and renderer

    A shallow embedding of [generate_html.py].

    - Python integers are [Z].
    - Python's true division [a / b] of two integers is the exact rational
      quotient in [Q]; it raises [ZeroDivisionError] when [b] is zero.  The
      binary64 rounding of the quotient is not modelled: the half-integer
      centres are exact in binary64, and a comparison [i / a > 0.6] of a
      rounded quotient agrees with the rational one as long as the area [a]
      stays below [2^52], which pixel coordinates do.
    - [np.std] is the exact population standard deviation, a real number;
      the rounding inside numpy is not modelled.
    - An [Element] object lives in a store ([heap]); a reference is its index.
      [children] holds references, so sharing and cycles can be expressed.
    - A Python [set] of elements is kept as a duplicate-free list; the order in
      which a [for] loop walks it is left open ([order], any permutation).
    - The depth of Python's recursion is bounded by [fuel]; running out of it
      is the exception [OutOfFuel]. *)

From Stdlib Require Import ZArith QArith Lia Ascii String Reals Qreals Sorted.
From stdpp Require Import base option list sets strings pretty.

Set Warnings "-register-all,-clear-no-such-hyp".

Open Scope Z_scope.

(** ** Exceptions *)

Inductive exn := ZeroDivisionError | RuntimeError | OutOfFuel.

Inductive result (A : Type) :=
| Ok (a : A)
| Raise (e : exn).
Arguments Ok {A} a.
Arguments Raise {A} e.

#[global] Instance result_ret : MRet result := fun A a => Ok a.
#[global] Instance result_bind : MBind result := fun A B k r =>
  match r with
  | Ok a => k a
  | Raise e => Raise e
  end.

(** [a / b] on Python integers. *)
Definition truediv (a b : Z) : result Q :=
  if b =? 0 then Raise ZeroDivisionError
  else Ok (inject_Z a / inject_Z b)%Q.

Definition Qlt_bool (x y : Q) : bool := negb (Qle_bool y x).

(** ** Geometry: [class BBox] *)

Record BBox := mkBBox { x1 : Z; y1 : Z; x2 : Z; y2 : Z }.

Definition area (b : BBox) : Z := (x2 b - x1 b) * (y2 b - y1 b).

(** The clipped rectangle of [overlap_ratio], as its four locals. *)
Definition x_left (self child : BBox) : Z := Z.max (x1 self) (x1 child).
Definition y_top (self child : BBox) : Z := Z.max (y1 self) (y1 child).
Definition x_right (self child : BBox) : Z := Z.min (x2 self) (x2 child).
Definition y_bottom (self child : BBox) : Z := Z.min (y2 self) (y2 child).

Definition disjoint_boxes (self child : BBox) : bool :=
  (x_right self child <? x_left self child)
  || (y_bottom self child <? y_top self child).

Definition intersection (self child : BBox) : Z :=
  (x_right self child - x_left self child)
  * (y_bottom self child - y_top self child).

(** [BBox.overlap_ratio(self, child)] *)
Definition overlap_ratio (self child : BBox) : result Q :=
  if disjoint_boxes self child then Ok 0%Q
  else truediv (intersection self child) (area self).

(** The centre of a box, [((x1 + x2) / 2, (y1 + y2) / 2)]. *)
Definition center_x (b : BBox) : Q := (inject_Z (x1 b + x2 b) / 2)%Q.
Definition center_y (b : BBox) : Q := (inject_Z (y1 b + y2 b) / 2)%Q.

Definition center_contained (self child : BBox) : bool :=
  (Qle_bool (inject_Z (x1 self)) (center_x child)
   && Qle_bool (center_x child) (inject_Z (x2 self)))
  && (Qle_bool (inject_Z (y1 self)) (center_y child)
      && Qle_bool (center_y child) (inject_Z (y2 self))).

(** [BBox.contains(self, child)].  The overlap is computed before the
    conjunction is evaluated, so its exception is raised whatever the other
    two conditions are. *)
Definition contains (self child : BBox) : result bool :=
  let self_area := area self in
  let child_area := area child in
  overlap ← overlap_ratio child self;
  Ok (center_contained self child
      && (child_area <? self_area)
      && Qlt_bool (6 # 10) overlap).

(** ** Elements and the store: [class Element] *)

Record Element := mkElement {
  class_name : string;
  bbox : BBox;
  class_id : option Z;
  children : list nat
}.

Abbreviation heap := (list Element).

Definition get_children (σ : heap) (n : nat) : list nat :=
  from_option children [] (σ !! n).

Definition get_bbox (σ : heap) (n : nat) : BBox :=
  from_option bbox (mkBBox 0 0 0 0) (σ !! n).

Definition with_children (cs : list nat) (e : Element) : Element :=
  mkElement (class_name e) (bbox e) (class_id e) cs.

Definition set_children (σ : heap) (n : nat) (cs : list nat) : heap :=
  alter (with_children cs) n σ.

(** [s.add(x)] and [s -= t] on a set kept as a duplicate-free list. *)
Definition set_add (x : nat) (s : list nat) : list nat :=
  if bool_decide (x ∈ s) then s else s ++ [x].

Definition set_diff (s t : list nat) : list nat :=
  filter (λ c, c ∉ t) s.

(** ** Hierarchy builder: [Element.add_child] and [create_tree] *)

Section Builder.

(** The order in which a [for] loop walks a set. *)
Variable order : list nat -> list nat.

(** First loop of [add_child]: every existing child that the new element
    contains is recorded in [children_to_move] and handed to the new
    element.  [rec] is the recursive call [child.add_child].

    The loop walks [self.children] while the recursive call runs.  Python
    stops with "RuntimeError: Set changed size during iteration" when the set
    is found altered at the next step; the model stops as soon as the
    recursive call has altered the set in any way. *)
Fixpoint move_loop (rec : heap -> nat -> nat -> result heap)
    (self child : nat) (existing : list nat) (σ : heap)
    (children_to_move : list nat) : result (heap * list nat) :=
  match existing with
  | [] => Ok (σ, children_to_move)
  | existing_child :: rest =>
      c ← contains (get_bbox σ child) (get_bbox σ existing_child);
      if c : bool then
        σ' ← rec σ child existing_child;
        if bool_decide (get_children σ' self = get_children σ self) then
          move_loop rec self child rest σ'
            (set_add existing_child children_to_move)
        else Raise RuntimeError
      else move_loop rec self child rest σ children_to_move
  end.

(** Second loop of [add_child]: the new element goes below the first
    remaining child that contains it; [None] when the loop falls through. *)
Fixpoint nest_loop (rec : heap -> nat -> nat -> result heap)
    (child : nat) (existing : list nat) (σ : heap) : result (option heap) :=
  match existing with
  | [] => Ok None
  | existing_child :: rest =>
      c ← contains (get_bbox σ existing_child) (get_bbox σ child);
      if c : bool then
        σ' ← rec σ existing_child child;
        Ok (Some σ')
      else nest_loop rec child rest σ
  end.

(** [self.add_child(child)].  Python's recursion is bounded by [fuel]. *)
Fixpoint add_child (fuel : nat) (σ : heap) (self child : nat) : result heap :=
  match fuel with
  | O => Raise OutOfFuel
  | S fuel =>
      if bool_decide (child ∈ get_children σ self) then Ok σ
      else
        '(σ1, children_to_move) ←
          move_loop (add_child fuel) self child (order (get_children σ self)) σ [];
        let σ2 :=
          set_children σ1 self (set_diff (get_children σ1 self) children_to_move) in
        nested ← nest_loop (add_child fuel) child (order (get_children σ2 self)) σ2;
        match nested with
        | Some σ3 => Ok σ3
        | None => Ok (set_children σ2 self (set_add child (get_children σ2 self)))
        end
  end.

(** The loop of [create_tree]. *)
Fixpoint add_all (fuel : nat) (σ : heap) (root : nat) (elements : list nat)
    : result heap :=
  match elements with
  | [] => Ok σ
  | element :: rest =>
      σ' ← add_child fuel σ root element;
      add_all fuel σ' root rest
  end.

(** [create_tree(elements)]: the sentinel is a new object of the store. *)
Definition create_tree (fuel : nat) (σ : heap) (elements : list nat)
    : result (heap * nat) :=
  let root := length σ in
  let σ0 := σ ++ [mkElement "root" (mkBBox 0 0 0 0) None []] in
  σ' ← add_all fuel σ0 root elements;
  Ok (σ', root).

End Builder.

(** [parse_annotations]: one new object per annotation, in input order. *)
Record annotation := mkAnnotation {
  ann_class : string;
  ann_class_id : Z;
  ann_bbox : BBox
}.

Definition parse_annotations (annotations : list annotation) : heap * list nat :=
  ((λ a, mkElement (ann_class a) (ann_bbox a) (Some (ann_class_id a)) [])
     <$> annotations,
   seq 0 (length annotations)).

Definition build (order : list nat -> list nat) (fuel : nat)
    (annotations : list annotation) : result (heap * nat) :=
  let '(σ, elements) := parse_annotations annotations in
  create_tree order fuel σ elements.

(** ** Reading the store

    [static] is what [add_child] never writes: the label, box and id of every
    object.  [child_of] is the edge relation of the object graph. *)

Definition static (σ : heap) : list (string * BBox * option Z) :=
  (λ e, (class_name e, bbox e, class_id e)) <$> σ.

Definition child_of (σ : heap) (parent c : nat) : Prop :=
  c ∈ get_children σ parent.

(** [descendant σ a b]: [b] is reached from [a] by one or more child edges. *)
Inductive descendant (σ : heap) : nat -> nat -> Prop :=
| desc_child a b : child_of σ a b -> descendant σ a b
| desc_step a b c : child_of σ a b -> descendant σ b c -> descendant σ a c.

(** Preorder listing of the references met below [n], one entry per path;
    the walk stops at depth [fuel]. *)
Fixpoint preorder (fuel : nat) (σ : heap) (n : nat) : list nat :=
  match fuel with
  | O => []
  | S fuel => n :: (get_children σ n ≫= preorder fuel σ)
  end.

(** ** Shapes: the unfolding of the store below a reference *)

Inductive shape := Sh (n : nat) (ks : list shape).

Definition sroot (t : shape) : nat := match t with Sh n _ => n end.

Fixpoint nodes (t : shape) : list nat :=
  match t with Sh n ks => n :: (ks ≫= nodes) end.

Fixpoint height (t : shape) : nat :=
  match t with Sh _ ks => S (foldr Nat.max 0%nat (map height ks)) end.

(** [repr σ t]: every node of [t] exists in [σ] and its children there are
    the roots of its subtrees in [t], in some order. *)
Inductive repr (σ : heap) : shape -> Prop :=
| repr_Sh n ks :
    (n < length σ)%nat ->
    get_children σ n ≡ₚ sroot <$> ks ->
    Forall (repr σ) ks ->
    repr σ (Sh n ks).

(** ** The tree the renderer walks

    The renderer only reads.  [tree_of] unfolds the store below a reference
    into the value it sees; the children of a node are listed in the order in
    which iterating the [children] set yields them. *)

Inductive Tree :=
  Node (label : string) (box : BBox) (ident : option Z) (kids : list Tree).

Definition t_class (t : Tree) : string := match t with Node c _ _ _ => c end.
Definition t_bbox (t : Tree) : BBox := match t with Node _ b _ _ => b end.
Definition t_id (t : Tree) : option Z := match t with Node _ _ i _ => i end.
Definition t_children (t : Tree) : list Tree := match t with Node _ _ _ ks => ks end.

Fixpoint tree_of (order : list nat -> list nat) (fuel : nat) (σ : heap) (n : nat)
    : option Tree :=
  match fuel with
  | O => None
  | S fuel =>
      e ← σ !! n;
      ks ← mapM (tree_of order fuel σ) (order (children e));
      Some (Node (class_name e) (bbox e) (class_id e) ks)
  end.

(** ** Alignment analyzer: [determine_flex_direction] *)

Definition Qsum (l : list Q) : Q := foldr Qplus 0%Q l.

Definition Qmean (l : list Q) : Q := (Qsum l / inject_Z (Z.of_nat (length l)))%Q.

(** The square of [np.std(l)]: the mean of the squared deviations from the
    mean (population form, numpy's default [ddof = 0]). *)
Definition variance (l : list Q) : Q :=
  Qmean ((λ x, (x - Qmean l) * (x - Qmean l))%Q <$> l).


(** [np.std(xs) > np.std(ys)], decided on the squares: both deviations are
    non-negative square roots, so they compare as the variances do. *)
Definition std_gt (xs ys : list Q) : bool := Qlt_bool (variance ys) (variance xs).

Definition determine_flex_direction (element : Tree) : string :=
  match t_children element with
  | [] => "flex-col"
  | _ =>
      let x_coords := (λ child, center_x (t_bbox child)) <$> t_children element in
      let y_coords := (λ child, center_y (t_bbox child)) <$> t_children element in
      if std_gt x_coords y_coords then "flex-row" else "flex-col"
  end.



(** ** Renderer: [get_children_order] and [generate_html] *)

(** [sorted(l, key=...)]: stable, ascending. *)
Fixpoint insert_sorted {A} (key : A -> Z) (x : A) (l : list A) : list A :=
  match l with
  | [] => [x]
  | y :: l' => if key x <=? key y then x :: l else y :: insert_sorted key x l'
  end.

Fixpoint sorted {A} (key : A -> Z) (l : list A) : list A :=
  match l with
  | [] => []
  | x :: l' => insert_sorted key x (sorted key l')
  end.

Definition get_children_order (orientation : string) (element : Tree) : list Tree :=
  if String.eqb orientation "flex-row"
  then sorted (λ x, x1 (t_bbox x)) (t_children element)
  else sorted (λ x, y1 (t_bbox x)) (t_children element).

Definition nl : string := String "010"%char "".

(** [str(class_id)] inside an f-string. *)
Definition fmt_id (i : option Z) : string :=
  match i with
  | Some z => pretty z
  | None => "None"
  end.

(** ["  " * indent] *)
Fixpoint indent_str (indent : nat) : string :=
  match indent with
  | O => ""
  | S n => "  " +:+ indent_str n
  end.

Definition base_classes : string := "relative ".

Definition get_tailwind_classes (element : Tree) : string :=
  let c := t_class element in
  let flex_dir := determine_flex_direction element in
  if String.eqb c "button" then
    base_classes +:+ "px-4 py-2 bg-blue-500 text-white rounded hover:bg-blue-600"
  else if String.eqb c "div" || String.eqb c "div-bg" then
    base_classes +:+ "flex " +:+ flex_dir +:+ " gap-4"
  else if String.eqb c "footer" then
    base_classes +:+ "flex " +:+ flex_dir
      +:+ " items-center justify-between w-full bg-gray-100 p-4"
  else if String.eqb c "grid" then
    base_classes +:+ "grid grid-cols-3 gap-4"
  else if String.eqb c "header" then
    base_classes +:+ "flex " +:+ flex_dir
      +:+ " items-center justify-between w-full bg-white p-4"
  else if String.eqb c "heading" then
    base_classes +:+ "text-2xl font-bold mb-4"
  else if String.eqb c "icon" then
    base_classes +:+ "w-6 h-6"
  else if String.eqb c "image" then
    base_classes +:+ "object-cover"
  else if String.eqb c "input" then
    base_classes +:+ "border rounded px-3 py-2 focus:outline-none focus:ring-2"
  else if String.eqb c "list" then
    base_classes +:+ "flex " +:+ flex_dir +:+ " gap-2"
  else if String.eqb c "paragraph" then
    base_classes +:+ "text-gray-600 leading-relaxed"
  else if String.eqb c "section" then
    base_classes +:+ "flex " +:+ flex_dir +:+ " gap-6 p-6"
  else if String.eqb c "span" then
    base_classes +:+ "flex " +:+ flex_dir +:+ " gap-2"
  else if String.eqb c "text" then
    base_classes +:+ "text-gray-800"
  else base_classes.

Definition get_element_tag (class_name : string) : string :=
  if String.eqb class_name "button" then "button"
  else if String.eqb class_name "heading" then "h2"
  else if String.eqb class_name "paragraph" then "p"
  else if String.eqb class_name "image" then "img"
  else if String.eqb class_name "input" then "input"
  else if String.eqb class_name "span" then "span"
  else if String.eqb class_name "text" then "span"
  else if String.eqb class_name "header" then "header"
  else if String.eqb class_name "footer" then "footer"
  else if String.eqb class_name "section" then "section"
  else "div".

(** The attributes every opening tag ends with. *)
Definition data_attrs (element : Tree) : string :=
  "data-id='" +:+ fmt_id (t_id element)
    +:+ "' data-type='" +:+ t_class element +:+ "'".

(** The opening line of [generate_element_html], with its placeholder. *)
Definition opening_tag (element : Tree) (indent : nat) : string :=
  let c := t_class element in
  let tag := get_element_tag c in
  let classes := get_tailwind_classes element in
  let width := x2 (t_bbox element) - x1 (t_bbox element) in
  let height := y2 (t_bbox element) - y1 (t_bbox element) in
  let plain :=
    indent_str indent +:+ "<" +:+ tag +:+ " class='" +:+ classes +:+ "' "
      +:+ data_attrs element +:+ ">" in
  if String.eqb c "image" then
    indent_str indent +:+ "<" +:+ tag +:+ " src='https://picsum.photos/"
      +:+ pretty width +:+ "/" +:+ pretty height
      +:+ "?random=1' alt='Placeholder' class='" +:+ classes +:+ "' "
      +:+ data_attrs element +:+ ">" +:+ nl
  else if String.eqb c "button" then plain +:+ "Click me" +:+ nl
  else if String.eqb c "heading" then plain +:+ "Sample Heading" +:+ nl
  else if String.eqb c "paragraph" then
    plain +:+ "Lorem ipsum dolor sit amet, consectetur adipiscing elit. Sed do eiusmod tempor incididunt ut labore et dolore magna aliqua." +:+ nl
  else if String.eqb c "input" then
    indent_str indent +:+ "<" +:+ tag
      +:+ " type='text' placeholder='Enter text here...' class='" +:+ classes
      +:+ "' " +:+ data_attrs element +:+ ">" +:+ nl
  else if String.eqb c "text" || String.eqb c "span" then
    plain +:+ "Sample text" +:+ nl
  else plain +:+ nl.

Definition closing_tag (element : Tree) (indent : nat) : string :=
  indent_str indent +:+ "</" +:+ get_element_tag (t_class element) +:+ ">" +:+ nl.

(** [element.class_name not in ["image", "input"]] *)
Definition self_closing (c : string) : bool :=
  String.eqb c "image" || String.eqb c "input".

(** [str.join("", l)] and the repeated [html += ...]. *)
Definition join (l : list string) : string := foldr String.append "" l.

(** The children of [element] in rendering order, each with what the
    recursive call makes of it.  The recursion of [generate_element_html] is
    on the members of the children list themselves, so each child is paired
    with its rendering before the pairs are put in order;
    [generate_element_html_eq] gives the function in the source's form. *)
Definition ordered_with {B} (orientation : string) (l : list (Tree * B))
    : list (Tree * B) :=
  if String.eqb orientation "flex-row"
  then sorted (λ x, x1 (t_bbox x.1)) l
  else sorted (λ x, y1 (t_bbox x.1)) l.

(** [generate_element_html(element, indent)].  [if not element] never fires
    (an [Element] is always truthy), and the [print] for headers writes to
    the console only. *)
Fixpoint generate_element_html (element : Tree) (indent : nat) : string :=
  match element with
  | Node c b i ks =>
      let rendered := (λ child, (child, generate_element_html child)) <$> ks in
      let ordered_children :=
        ordered_with (determine_flex_direction element) rendered in
      if String.eqb c "root" then
        join ((λ cr : Tree * (nat -> string), cr.2 indent) <$> ordered_children)
      else
        let html := opening_tag element indent in
        if negb (self_closing c) then
          html
            +:+ join ((λ cr : Tree * (nat -> string), cr.2 (S indent))
                        <$> ordered_children)
            +:+ closing_tag element indent
        else html
  end.

Definition generate_html (root : Tree) : string := generate_element_html root 0.

(** [create_html_file] up to the file handling: parse, build, render. *)
Definition render_annotations (order : list nat -> list nat) (fuel : nat)
    (annotations : list annotation) : result (option string) :=
  '(σ, root) ← build order fuel annotations;
  Ok (generate_html <$> tree_of order (S (length σ)) σ root).


(** ** Specification of the builder

    [outcome] says what a call may end in: a result satisfying [post], an
    exhausted recursion bound only when [fuel] is below [size], a
    [ZeroDivisionError] only when a box of zero area is among the elements
    [compared] that the call hands to [contains], and never a
    [RuntimeError]. *)

Definition outcome {A} (fuel : nat) (σ : heap) (size : nat) (compared : list nat)
    (post : A -> Prop) (r : result A) : Prop :=
  match r with
  | Ok a => post a
  | Raise OutOfFuel => (fuel < size)%nat
  | Raise ZeroDivisionError => ∃ m, m ∈ compared ∧ area (get_bbox σ m) = 0
  | Raise RuntimeError => False
  end.

(** Only the [children] of the elements in [scope] were written. *)
Definition frame (σ σ' : heap) (scope : list nat) : Prop :=
  static σ' = static σ
  ∧ ∀ m, m ∉ scope -> get_children σ' m = get_children σ m.

(** The nodes of a shape below its root. *)
Definition below (t : shape) : list nat := match t with Sh _ ks => ks ≫= nodes end.

(** [add_child] joins two disjoint trees of the store into one below the
    root of the first; the box of that root is never looked at. *)
Definition add_child_ok (fuel : nat) (rec : heap -> nat -> nat -> result heap) : Prop :=
  ∀ σ tp tx,
    repr σ tp -> repr σ tx -> NoDup (nodes tp ++ nodes tx) ->
    outcome fuel σ (length (nodes tp ++ nodes tx)) (below tp ++ nodes tx)
      (λ σ', ∃ tp', repr σ' tp' ∧ sroot tp' = sroot tp
                    ∧ nodes tp' ≡ₚ nodes tp ++ nodes tx
                    ∧ frame σ σ' (nodes tp ++ nodes tx))
      (rec σ (sroot tp) (sroot tx)).

(** ** Sample batches *)

(** An iteration order for the samples: the order of insertion. *)
Definition insertion_order (l : list nat) : list nat := l.


(** Three nested detections: box 0 holds box 1, box 2 holds box 0, but box 2
    does not hold box 1 (its centre lies to the right of box 2). *)
Definition chain_batch : list annotation :=
  [mkAnnotation "section" 0 (mkBBox 4 0 13 10);
   mkAnnotation "button" 1 (mkBBox 9 0 13 10);
   mkAnnotation "div" 2 (mkBBox 0 0 10 10)].

(** A valid box, the box [50,50,10,10] with both corners swapped, and a box
    of negative area. *)
Definition inverted_batch : list annotation :=
  [mkAnnotation "div" 0 (mkBBox 0 0 100 100);
   mkAnnotation "button" 1 (mkBBox 50 50 10 10);
   mkAnnotation "icon" 2 (mkBBox 50 50 10 60)].

(** The end-to-end scenario: a header and a button inside it. *)
Definition header_batch : list annotation :=
  [mkAnnotation "header" 0 (mkBBox 0 0 100 20);
   mkAnnotation "button" 1 (mkBBox 10 5 40 15)].

(** The references met when walking the built tree from the sentinel. *)
Definition built_nodes (order : list nat -> list nat) (fuel : nat)
    (annotations : list annotation) : result (list nat) :=
  '(σ, root) ← build order fuel annotations;
  Ok (preorder (S (length annotations)) σ root).

(** Build, then hand [element] to the sentinel a second time; the children
    of [watch] before and after. *)
Definition reinsert (order : list nat -> list nat) (fuel : nat)
    (annotations : list annotation) (element watch : nat)
    : result (list nat * list nat) :=
  '(σ, root) ← build order fuel annotations;
  σ' ← add_child order fuel σ root element;
  Ok (get_children σ watch, get_children σ' watch).

(** ** Sample trees *)

Definition sample_button : Tree := Node "button" (mkBBox 10 5 40 15) (Some 1) [].

(** An input element whose detected label happens to be "root". *)
Definition labelled_root : Tree := Node "root" (mkBBox 0 0 100 20) (Some 0) [sample_button].

(** An image placeholder of width zero. *)
Definition flat_image : Tree := Node "image" (mkBBox 0 0 0 20) (Some 0) [].

(** A box with a pair of corners in the wrong order, such as [50,50,10,10]. *)
Definition inverted (b : BBox) : Prop := x2 b < x1 b ∨ y2 b < y1 b.

(** ** Invariants of the builder *)

(** Every parent other than [root] contains each of its children. *)
Definition edges_contained (σ : heap) (root : nat) : Prop :=
  ∀ p x, child_of σ p x -> p ≠ root ->
         contains (get_bbox σ p) (get_bbox σ x) = Ok true.

(** No element contains one of its siblings. *)
Definition siblings_apart (σ : heap) : Prop :=
  ∀ p c1 c2, child_of σ p c1 -> child_of σ p c2 -> c1 ≠ c2 ->
             contains (get_bbox σ c1) (get_bbox σ c2) = Ok false.

Definition tidy (σ : heap) (root : nat) : Prop :=
  edges_contained σ root ∧ siblings_apart σ.

(** Two separate boxes and one with swapped corners. *)
Definition scattered_batch : list annotation :=
  [mkAnnotation "button" 0 (mkBBox 0 0 10 10);
   mkAnnotation "image" 1 (mkBBox 20 0 30 10);
   mkAnnotation "text" 2 (mkBBox 28 8 22 2)].

(** ** The key of [get_children_order] *)

(** The sort key that [get_children_order] uses for an orientation. *)
Definition order_key (orientation : string) (x : Tree) : Z :=
  if String.eqb orientation "flex-row" then x1 (t_bbox x) else y1 (t_bbox x).

(** ** The labels the renderer knows *)

(** The labels with a case of their own in [get_tailwind_classes] or
    [get_element_tag], and "root". *)
Definition known_labels : list string :=
  ["button"; "div"; "div-bg"; "footer"; "grid"; "header"; "heading"; "icon";
   "image"; "input"; "list"; "paragraph"; "section"; "span"; "text"; "root"].

(** ** Debug listing: [Element.pretty_print] *)

(** [sorted(l, key=...)] for string keys, which Python compares by code
    point: stable, ascending. *)
Fixpoint insert_sorted_str {A} (key : A -> string) (x : A) (l : list A) : list A :=
  match l with
  | [] => [x]
  | y :: l' =>
      if String.leb (key x) (key y) then x :: l
      else y :: insert_sorted_str key x l'
  end.

Fixpoint sorted_str {A} (key : A -> string) (l : list A) : list A :=
  match l with
  | [] => []
  | x :: l' => insert_sorted_str key x (sorted_str key l')
  end.

(** [" " * indent] *)
Fixpoint spaces (indent : nat) : string :=
  match indent with
  | O => ""
  | S n => " " +:+ spaces n
  end.

(** [str(vars(bbox))]: the fields of the dataclass in declaration order. *)
Definition fmt_bbox (b : BBox) : string :=
  "{'x1': " +:+ pretty (x1 b) +:+ ", 'y1': " +:+ pretty (y1 b)
    +:+ ", 'x2': " +:+ pretty (x2 b) +:+ ", 'y2': " +:+ pretty (y2 b) +:+ "}".

(** The line [pretty_print] prints for one element. *)
Definition element_line (element : Tree) (indent : nat) : string :=
  spaces indent +:+ "Element(class='" +:+ t_class element +:+ "', bbox="
    +:+ fmt_bbox (t_bbox element) +:+ ", class_id=" +:+ fmt_id (t_id element)
    +:+ ")".

(** [element.pretty_print(indent)]: the lines printed, in order.  As in
    [generate_element_html], each child is paired with its own listing
    before the pairs are sorted by label. *)
Fixpoint pretty_print (element : Tree) (indent : nat) : list string :=
  match element with
  | Node c b i ks =>
      let printed := (λ child, (child, pretty_print child)) <$> ks in
      element_line element indent
        :: concat ((λ cp : Tree * (nat -> list string), cp.2 (2 + indent)%nat)
                     <$> sorted_str (λ cp, t_class cp.1) printed)
  end.

(** The number of elements of a tree. *)
Fixpoint tree_size (element : Tree) : nat :=
  match element with
  | Node _ _ _ ks => S (foldr Nat.add 0%nat (tree_size <$> ks))
  end.

(** * Properties *)

Lemma shape_ind' (P : shape -> Prop) :
  (∀ n ks, Forall P ks -> P (Sh n ks)) -> ∀ t, P t.
Proof.
  intros step. fix IH 1. intros [n ks]. apply step.
  induction ks as [|k ks IHks]; constructor; [apply IH | exact IHks].
Qed.


(** ** Geometry *)

Lemma truediv_raise a b e : truediv a b = Raise e -> e = ZeroDivisionError ∧ b = 0.
Proof.
  unfold truediv. destruct (Z.eqb_spec b 0); [|discriminate].
  intros [= <-]. done.
Qed.

Lemma overlap_ratio_raise self child e :
  overlap_ratio self child = Raise e -> e = ZeroDivisionError ∧ area self = 0.
Proof.
  unfold overlap_ratio. destruct (disjoint_boxes self child); [discriminate|].
  apply truediv_raise.
Qed.

Lemma overlap_ratio_total self child :
  area self ≠ 0 -> ∃ q, overlap_ratio self child = Ok q.
Proof.
  intros Ha. destruct (overlap_ratio self child) as [q|e] eqn:E; [by eexists|].
  by apply overlap_ratio_raise in E as [_ ?].
Qed.

(** A zero-area target: the result is [0.0] only when the early return for
    disjoint boxes fires; otherwise the division [0 / 0] is reached. *)
Lemma overlap_ratio_zero_area target reference :
  area target = 0 ->
  overlap_ratio target reference =
    if disjoint_boxes target reference then Ok 0%Q else Raise ZeroDivisionError.
Proof.
  intros Ha. unfold overlap_ratio, truediv. rewrite Ha. done.
Qed.

Lemma contains_raise self child e :
  contains self child = Raise e -> e = ZeroDivisionError ∧ area child = 0.
Proof.
  unfold contains. destruct (overlap_ratio child self) as [q|e'] eqn:E; [discriminate|].
  intros [= <-]. by apply overlap_ratio_raise in E.
Qed.

Lemma contains_total self child :
  area child ≠ 0 -> ∃ b, contains self child = Ok b.
Proof.
  intros Ha. destruct (contains self child) as [b|e] eqn:E; [by eexists|].
  by apply contains_raise in E as [_ ?].
Qed.

Lemma center_contained_spec self child :
  center_contained self child = true <->
  2 * x1 self <= x1 child + x2 child <= 2 * x2 self
  ∧ 2 * y1 self <= y1 child + y2 child <= 2 * y2 self.
Proof.
  unfold center_contained, center_x, center_y.
  rewrite !andb_true_iff, !Qle_bool_iff.
  unfold Qle, Qdiv, Qmult, Qinv, inject_Z; simpl. lia.
Qed.

(** [contains] answers [True] exactly on the three conditions of its
    docstring. *)
Lemma contains_true_iff self child :
  contains self child = Ok true <->
  center_contained self child = true
  ∧ area child < area self
  ∧ ∃ overlap, overlap_ratio child self = Ok overlap ∧ (6 # 10 < overlap)%Q.
Proof.
  unfold contains, Qlt_bool.
  destruct (overlap_ratio child self) as [q|e]; simpl.
  - split.
    + intros [= H]. apply andb_true_iff in H as [H Hq].
      apply andb_true_iff in H as [Hc Ha].
      split; [done|]. split; [lia|]. exists q. split; [done|].
      apply negb_true_iff in Hq. apply Qnot_le_lt. intros Hle.
      apply Qle_bool_iff in Hle. congruence.
    + intros (Hc & Ha & q' & [= <-] & Hq). f_equal.
      rewrite Hc. simpl. apply andb_true_iff. split; [lia|].
      apply negb_true_iff. apply not_true_is_false. intros Hle.
      apply Qle_bool_iff in Hle. by apply Qlt_not_le in Hq.
  - split; [discriminate|]. by intros (_ & _ & q & [=] & _).
Qed.

(** As soon as the overlap ratio is computed, failing any one of the three
    conditions makes the answer [False]. *)
Lemma contains_false_iff self child overlap :
  overlap_ratio child self = Ok overlap ->
  (contains self child = Ok false <->
   center_contained self child = false
   ∨ area self <= area child
   ∨ (overlap <= 6 # 10)%Q).
Proof.
  intros Ho. unfold contains, Qlt_bool. rewrite Ho. simpl.
  destruct (center_contained self child); simpl.
  - destruct (Z.ltb_spec (area child) (area self)); simpl.
    + destruct (Qle_bool overlap (6 # 10)) eqn:E; simpl.
      * apply Qle_bool_iff in E. naive_solver.
      * split; [discriminate|]. intros [?|[?|Hq]]; [done|lia|].
        apply Qle_bool_iff in Hq. congruence.
    + naive_solver.
  - naive_solver.
Qed.

(** ** The store *)

Lemma get_children_set_children_eq σ n cs :
  (n < length σ)%nat -> get_children (set_children σ n cs) n = cs.
Proof.
  intros Hn. unfold get_children, set_children.
  rewrite list_lookup_alter_eq.
  destruct (lookup_lt_is_Some_2 σ n Hn) as [e ->]. done.
Qed.

Lemma get_children_set_children_ne σ n m cs :
  m ≠ n -> get_children (set_children σ n cs) m = get_children σ m.
Proof.
  intros Hne. unfold get_children, set_children.
  by rewrite list_lookup_alter_ne.
Qed.

Lemma length_set_children σ n cs : length (set_children σ n cs) = length σ.
Proof. apply length_alter. Qed.

Lemma static_set_children σ n cs : static (set_children σ n cs) = static σ.
Proof.
  unfold static, set_children. apply list_eq. intros i.
  rewrite !list_lookup_fmap.
  destruct (decide (n = i)) as [->|Hne].
  - rewrite list_lookup_alter_eq. by destruct (σ !! i).
  - by rewrite list_lookup_alter_ne.
Qed.

Lemma static_length σ σ' : static σ' = static σ -> length σ' = length σ.
Proof.
  intros H. apply (f_equal length) in H. unfold static in H.
  by rewrite !length_fmap in H.
Qed.

Lemma static_bbox σ σ' m : static σ' = static σ -> get_bbox σ' m = get_bbox σ m.
Proof.
  intros H. apply (f_equal (λ l, l !! m)) in H. unfold static in H.
  rewrite !list_lookup_fmap in H. unfold get_bbox.
  destruct (σ' !! m), (σ !! m); simpl in *; congruence.
Qed.

(** ** Shapes *)

Lemma sroot_in_nodes t : sroot t ∈ nodes t.
Proof. destruct t; simpl. apply list_elem_of_here. Qed.

Lemma nodes_length_pos t : (0 < length (nodes t))%nat.
Proof. destruct t; simpl. lia. Qed.

Lemma nodes_below t : nodes t = sroot t :: below t.
Proof. by destruct t. Qed.

Lemma elem_of_below t m : m ∈ below t -> m ∈ nodes t.
Proof. rewrite nodes_below. apply list_elem_of_further. Qed.

Lemma below_perm t t' l :
  sroot t' = sroot t -> nodes t' ≡ₚ nodes t ++ l -> below t' ≡ₚ below t ++ l.
Proof.
  rewrite !nodes_below. intros ->. simpl. apply Permutation_cons_inv.
Qed.

Lemma forest_nodes_elem (ks : list shape) k m :
  k ∈ ks -> m ∈ nodes k -> m ∈ ks ≫= nodes.
Proof. intros. apply list_elem_of_bind. eauto. Qed.

Lemma sroot_in_forest (ks : list shape) c : c ∈ sroot <$> ks -> c ∈ ks ≫= nodes.
Proof.
  intros (k & -> & Hk)%list_elem_of_fmap.
  eapply forest_nodes_elem; [done|apply sroot_in_nodes].
Qed.

Lemma repr_length σ t : repr σ t -> (sroot t < length σ)%nat.
Proof. by inversion 1. Qed.

(** A shape stays a representation when the store keeps the children of all
    its nodes. *)
Lemma repr_frame σ σ' t :
  length σ' = length σ ->
  repr σ t ->
  (∀ m, m ∈ nodes t -> get_children σ' m = get_children σ m) ->
  repr σ' t.
Proof.
  intros Hlen. induction t as [n ks IH] using shape_ind'.
  intros Hr Hsame. inversion Hr as [? ? Hn Hc Hks]; subst.
  constructor.
  - lia.
  - rewrite Hsame; [done|]. simpl. apply list_elem_of_here.
  - rewrite Forall_forall in IH, Hks. apply Forall_forall. intros k Hk.
    apply IH; [done|by apply Hks|].
    intros m Hm. apply Hsame. simpl. apply list_elem_of_further.
    by eapply forest_nodes_elem.
Qed.

Lemma repr_forest_frame σ σ' (ks : list shape) :
  length σ' = length σ ->
  Forall (repr σ) ks ->
  (∀ m, m ∈ ks ≫= nodes -> get_children σ' m = get_children σ m) ->
  Forall (repr σ') ks.
Proof.
  intros Hlen Hks Hsame. rewrite Forall_forall in Hks. apply Forall_forall.
  intros k Hk. eapply repr_frame; [done|by apply Hks|].
  intros m Hm. apply Hsame. by eapply forest_nodes_elem.
Qed.

(** ** Reasoning about outcomes *)

Lemma outcome_bind {A B} fuel σ size scope (mid : A -> Prop) (post : B -> Prop)
    (r : result A) (k : A -> result B) :
  outcome fuel σ size scope mid r ->
  (∀ a, mid a -> outcome fuel σ size scope post (k a)) ->
  outcome fuel σ size scope post (r ≫= k).
Proof. destruct r as [a|[]]; simpl; auto. Qed.

Lemma outcome_weaken {A} fuel fuel' σ σ' size size' scope scope'
    (post post' : A -> Prop) r :
  outcome fuel σ size scope post r ->
  ((fuel < size)%nat -> (fuel' < size')%nat) ->
  (∀ m, m ∈ scope -> m ∈ scope') ->
  static σ = static σ' ->
  (∀ a, post a -> post' a) ->
  outcome fuel' σ' size' scope' post' r.
Proof.
  intros Hr Hfuel Hsub Hst Hpost. destruct r as [a|[]]; simpl in *; auto.
  destruct Hr as (m & Hm & Ha). exists m. split; [auto|].
  by rewrite <- (static_bbox σ' σ m).
Qed.

Lemma contains_outcome fuel σ size scope a b :
  b ∈ scope ->
  outcome fuel σ size scope (λ _, True) (contains (get_bbox σ a) (get_bbox σ b)).
Proof.
  intros Hb. destruct (contains _ _) as [c|e] eqn:E; simpl; [done|].
  apply contains_raise in E as [-> Ha]. eauto.
Qed.

Lemma frame_refl σ scope : frame σ σ scope.
Proof. by split. Qed.

Lemma frame_trans σ1 σ2 σ3 scope1 scope2 scope :
  frame σ1 σ2 scope1 -> frame σ2 σ3 scope2 ->
  (∀ m, m ∈ scope1 -> m ∈ scope) -> (∀ m, m ∈ scope2 -> m ∈ scope) ->
  frame σ1 σ3 scope.
Proof.
  intros [Hs1 Hc1] [Hs2 Hc2] H1 H2. split; [congruence|].
  intros m Hm. rewrite Hc2, Hc1; auto.
Qed.

Lemma frame_set_children σ n cs scope :
  n ∈ scope -> frame σ (set_children σ n cs) scope.
Proof.
  intros Hn. split; [apply static_set_children|].
  intros m Hm. apply get_children_set_children_ne. congruence.
Qed.

(** ** The two loops of [add_child] *)

Lemma elem_of_set_add x y s : x ∈ set_add y s <-> x = y ∨ x ∈ s.
Proof.
  unfold set_add. case_bool_decide; set_solver.
Qed.

Lemma move_loop_spec fuel rec self :
  add_child_ok fuel rec ->
  ∀ (pend : list shape) σ moved tx,
    repr σ tx -> Forall (repr σ) pend -> NoDup (nodes tx ++ (pend ≫= nodes)) ->
    self ∉ nodes tx ++ (pend ≫= nodes) ->
    outcome fuel σ (length (nodes tx ++ (pend ≫= nodes))) (nodes tx ++ (pend ≫= nodes))
      (λ '(σ', moved'), ∃ tx' mv stay,
          pend ≡ₚ mv ++ stay
          ∧ (∀ c, c ∈ moved' <-> c ∈ moved ∨ c ∈ sroot <$> mv)
          ∧ repr σ' tx' ∧ sroot tx' = sroot tx
          ∧ nodes tx' ≡ₚ nodes tx ++ (mv ≫= nodes)
          ∧ Forall (repr σ') stay
          ∧ frame σ σ' (nodes tx ++ (pend ≫= nodes)))
      (move_loop rec self (sroot tx) (sroot <$> pend) σ moved).
Proof.
  intros Hrec pend. induction pend as [|k pend IH]; intros σ moved tx Hx Hp Hnd Hself.
  - simpl. exists tx, [], []. simpl. rewrite app_nil_r.
    split_and!; [done|set_solver|done|done|done|done|apply frame_refl].
  - rewrite fmap_cons. simpl move_loop.
    apply Forall_cons in Hp as [Hk Hp].
    rewrite bind_cons in Hnd |- *.
    eapply outcome_bind.
    { apply contains_outcome with (b := sroot k).
      pose proof (sroot_in_nodes k). set_solver. }
    intros c _. destruct c.
    + eapply outcome_bind.
      { eapply outcome_weaken; [apply (Hrec σ tx k Hx Hk)|..].
        - rewrite app_assoc in Hnd. by apply NoDup_app in Hnd as [? _].
        - rewrite !length_app. lia.
        - intros m [Hm%elem_of_below|Hm]%elem_of_app; set_solver.
        - done.
        - intros σ1 H. exact H. }
      intros σ1 (tx1 & Hr1 & Hroot1 & Hn1 & Hst1 & Hf1). simpl.
      rewrite bool_decide_eq_true_2 by (apply Hf1; set_solver).
      assert (Hlen1 : length σ1 = length σ) by by apply static_length.
      assert (Hp1 : Forall (repr σ1) pend).
      { eapply repr_forest_frame; [done..|]. intros m Hm. apply Hf1.
        intros Hin. rewrite app_assoc in Hnd.
        apply NoDup_app in Hnd as (_ & Hd & _). by apply (Hd m). }
      assert (Hnd1 : NoDup (nodes tx1 ++ (pend ≫= nodes))).
      { rewrite Hn1. by rewrite <- app_assoc. }
      rewrite <- Hroot1.
      eapply outcome_weaken; [apply (IH σ1 (set_add (sroot k) moved) tx1 Hr1 Hp1 Hnd1)|..].
      * rewrite Hn1. set_solver.
      * rewrite Hn1. rewrite !length_app. lia.
      * intros m. rewrite Hn1. set_solver.
      * done.
      * intros [σ' moved'] (tx' & mv & stay & Hperm & Hmv & Hr' & Hroot' & Hn' & Hstay & Hfr).
        exists tx', (k :: mv), stay. split_and!.
        -- simpl. by rewrite Hperm.
        -- intros c. rewrite Hmv, elem_of_set_add, fmap_cons. set_solver.
        -- done.
        -- congruence.
        -- rewrite Hn', Hn1, bind_cons. by rewrite <- app_assoc.
        -- done.
        -- eapply frame_trans; [by split|exact Hfr|..].
           ++ set_solver.
           ++ intros m. rewrite Hn1. set_solver.
    + eapply outcome_weaken; [apply (IH σ moved tx Hx Hp)|..].
      * rewrite app_assoc in Hnd.
        apply NoDup_app in Hnd as (Hnd1 & Hnd2 & Hnd3).
        apply NoDup_app in Hnd1 as (Hx1 & Hx2 & Hx3).
        apply NoDup_app. split_and!; [done| |done].
        intros m Hm Hm'. apply (Hnd2 m); set_solver.
      * set_solver.
      * rewrite !length_app. lia.
      * set_solver.
      * done.
      * intros [σ' moved'] (tx' & mv & stay & Hperm & Hmv & Hr' & Hroot' & Hn' & Hstay & Hst & Hfr).
        exists tx', mv, (k :: stay). split_and!.
        -- rewrite Hperm. by rewrite Permutation_middle.
        -- done.
        -- done.
        -- done.
        -- done.
        -- constructor; [|done].
           eapply repr_frame; [by apply static_length|done|].
           intros m Hm. apply Hfr. intros Hin.
           apply NoDup_app in Hnd as (_ & Hd & Hd').
           apply NoDup_app in Hd' as (_ & Hd' & _).
           apply elem_of_app in Hin as [Hin|Hin].
           ++ apply (Hd m Hin). set_solver.
           ++ by apply (Hd' m).
        -- split; [done|]. intros m Hm. apply Hfr. set_solver.
Qed.

Lemma nest_loop_spec fuel rec :
  add_child_ok fuel rec ->
  ∀ (pend : list shape) σ tx,
    repr σ tx -> Forall (repr σ) pend -> NoDup (nodes tx ++ (pend ≫= nodes)) ->
    outcome fuel σ (length (nodes tx ++ (pend ≫= nodes))) (nodes tx ++ (pend ≫= nodes))
      (λ r, match r with
            | None => True
            | Some σ' =>
                ∃ pend', Forall (repr σ') pend'
                  ∧ sroot <$> pend' = sroot <$> pend
                  ∧ pend' ≫= nodes ≡ₚ (pend ≫= nodes) ++ nodes tx
                  ∧ frame σ σ' (nodes tx ++ (pend ≫= nodes))
            end)
      (nest_loop rec (sroot tx) (sroot <$> pend) σ).
Proof.
  intros Hrec pend. induction pend as [|k pend IH]; intros σ tx Hx Hp Hnd.
  - simpl. done.
  - rewrite fmap_cons. simpl nest_loop.
    apply Forall_cons in Hp as [Hk Hp].
    rewrite bind_cons in Hnd |- *.
    pose proof Hnd as Hnd0.
    apply NoDup_app in Hnd as (Hndx & Hdx & Hnd).
    apply NoDup_app in Hnd as (Hndk & Hdk & Hndp).
    eapply outcome_bind.
    { apply contains_outcome with (b := sroot tx).
      pose proof (sroot_in_nodes tx). set_solver. }
    intros c _. destruct c.
    + eapply outcome_bind.
      { eapply outcome_weaken; [apply (Hrec σ k tx Hk Hx)|..].
        - apply NoDup_app. split_and!; [done| |done].
          intros m Hm Hm'. apply (Hdx m Hm'). set_solver.
        - rewrite !length_app. lia.
        - intros m [Hm%elem_of_below|Hm]%elem_of_app; set_solver.
        - done.
        - intros σ1 H. exact H. }
      intros σ1 (k1 & Hr1 & Hroot1 & Hn1 & Hst1 & Hf1). simpl.
      exists (k1 :: pend). split_and!.
      * constructor; [done|].
        eapply repr_forest_frame; [by apply static_length|done|].
        intros m Hm. apply Hf1. intros Hin.
        apply elem_of_app in Hin as [Hin|Hin].
        -- by apply (Hdk m).
        -- apply (Hdx m Hin). set_solver.
      * rewrite !fmap_cons. by rewrite Hroot1.
      * rewrite bind_cons, Hn1.
        rewrite <- !app_assoc. f_equiv. apply Permutation_app_comm.
      * split; [done|]. intros m Hm. apply Hf1. set_solver.
    + eapply outcome_weaken; [apply (IH σ tx Hx Hp)|..].
      * apply NoDup_app. split_and!; [done| |done].
        intros m Hm Hm'. apply (Hdx m Hm). set_solver.
      * rewrite !length_app. lia.
      * set_solver.
      * done.
      * intros [σ'|]; [|done].
        intros (pend' & Hp' & Hroots & Hn' & Hst & Hfr).
        exists (k :: pend'). split_and!.
        -- constructor; [|done].
           eapply repr_frame; [by apply static_length|done|].
           intros m Hm. apply Hfr. intros Hin.
           apply elem_of_app in Hin as [Hin|Hin].
           ++ apply (Hdx m Hin). set_solver.
           ++ by apply (Hdk m).
        -- rewrite !fmap_cons. by rewrite Hroots.
        -- rewrite !bind_cons, Hn'. by rewrite <- app_assoc.
        -- split; [done|]. intros m Hm. apply Hfr. set_solver.
Qed.

(** ** [add_child] *)

Lemma perm_rot3 {A} (a x m : list A) : a ++ x ++ m ≡ₚ (m ++ a) ++ x.
Proof.
  rewrite <- (app_assoc m). rewrite (Permutation_app_comm m (a ++ x)).
  by rewrite <- app_assoc.
Qed.

Lemma roots_NoDup_disjoint (mv stay : list shape) c :
  NoDup ((mv ++ stay) ≫= nodes) ->
  c ∈ sroot <$> mv -> c ∈ sroot <$> stay -> False.
Proof.
  rewrite bind_app. intros (_ & Hd & _)%NoDup_app Hm Hs.
  apply (Hd c); by apply sroot_in_forest.
Qed.

Lemma roots_NoDup (ks : list shape) : NoDup (ks ≫= nodes) -> NoDup (sroot <$> ks).
Proof.
  induction ks as [|k ks IH]; [constructor|].
  rewrite bind_cons, fmap_cons. intros (_ & Hd & Hnd)%NoDup_app.
  constructor; [|by apply IH].
  intros Hin. apply (Hd (sroot k)); [apply sroot_in_nodes|by apply sroot_in_forest].
Qed.

Lemma filter_none {A} (P : A -> Prop) `{∀ x, Decision (P x)} (l : list A) :
  (∀ x, x ∈ l -> ¬ P x) -> filter P l = [].
Proof.
  induction l as [|x l IH]; intros Hl; [done|].
  rewrite filter_cons_False by (apply Hl; apply list_elem_of_here).
  apply IH. intros y Hy. apply Hl. by apply list_elem_of_further.
Qed.

Lemma filter_all {A} (P : A -> Prop) `{∀ x, Decision (P x)} (l : list A) :
  (∀ x, x ∈ l -> P x) -> filter P l = l.
Proof.
  induction l as [|x l IH]; intros Hl; [done|].
  rewrite filter_cons_True by (apply Hl; apply list_elem_of_here).
  f_equal. apply IH. intros y Hy. apply Hl. by apply list_elem_of_further.
Qed.

Lemma set_diff_moved (mv stay : list shape) (l moved : list nat) :
  l ≡ₚ sroot <$> (mv ++ stay) ->
  NoDup ((mv ++ stay) ≫= nodes) ->
  (∀ c, c ∈ moved <-> c ∈ sroot <$> mv) ->
  set_diff l moved ≡ₚ sroot <$> stay.
Proof.
  intros Hl Hnd Hmoved. unfold set_diff. rewrite Hl, fmap_app, filter_app.
  rewrite (filter_none _ (sroot <$> mv)).
  2: { intros c Hc Hn. apply Hn. by apply Hmoved. }
  rewrite filter_all; [done|].
  intros c Hc Hin%Hmoved. by eapply roots_NoDup_disjoint.
Qed.

Section BuilderCorrect.

Variable order : list nat -> list nat.
Hypothesis order_perm : ∀ l, order l ≡ₚ l.

Lemma order_shapes (ks : list shape) (l : list nat) :
  l ≡ₚ sroot <$> ks -> ∃ ks', ks' ≡ₚ ks ∧ order l = sroot <$> ks'.
Proof.
  intros Hl. rewrite <- (order_perm l) in Hl.
  apply Permutation_map_inv in Hl as (ks' & Heq & Hperm).
  exists ks'. split; [by symmetry|done].
Qed.

Lemma add_child_spec fuel : add_child_ok fuel (add_child order fuel).
Proof.
  induction fuel as [|fuel IH]; intros σ tp tx Hp Hx Hnd.
  - simpl. rewrite length_app. pose proof (nodes_length_pos tp). lia.
  - destruct tp as [p ks]. inversion Hp as [? ? Hlen Hch Hks]; subst.
    simpl sroot. simpl nodes in *. simpl add_child.
    pose proof (sroot_in_nodes tx) as Hxin.
    apply NoDup_app in Hnd as (Hndp & Hdisj & Hndx).
    apply NoDup_cons in Hndp as (Hp_notin & Hndks).
    assert (Hpx : p ∉ nodes tx).
    { intros Hin. apply (Hdisj p); [apply list_elem_of_here|done]. }
    assert (Hdisj' : ∀ m, m ∈ ks ≫= nodes -> m ∉ nodes tx).
    { intros m Hm. apply Hdisj. by apply list_elem_of_further. }
    rewrite bool_decide_eq_false_2.
    2: { rewrite Hch. intros Hin%sroot_in_forest. by apply (Hdisj' _ Hin). }
    destruct (order_shapes ks (get_children σ p) Hch) as (ks' & Hks' & ->).
    assert (Hnodes' : ks' ≫= nodes ≡ₚ ks ≫= nodes) by by rewrite Hks'.
    eapply outcome_bind.
    { eapply outcome_weaken;
        [apply (move_loop_spec fuel _ p IH ks' σ [] tx Hx)|..].
      - by rewrite Hks'.
      - rewrite Hnodes'. apply NoDup_app. split_and!; [done| |done].
        intros m Hm Hm'. by apply (Hdisj' m).
      - rewrite Hnodes'. set_solver.
      - rewrite !length_app, Hnodes'. simpl. lia.
      - intros m. rewrite Hnodes'. set_solver.
      - done.
      - intros a H. exact H. }
    intros [σ1 moved]
      (tx1 & mv & stay & Hperm & Hmv & Hr1 & Hroot1 & Hn1 & Hstay & Hst1 & Hf1).
    simpl.
    assert (Hsplit : ks ≡ₚ mv ++ stay) by by rewrite <- Hks'.
    assert (Hlen1 : length σ1 = length σ) by by apply static_length.
    assert (Hch1 : get_children σ1 p = get_children σ p).
    { apply Hf1. rewrite Hnodes'. set_solver. }
    rewrite Hch1.
    set (σ2 := set_children σ1 p (set_diff (get_children σ p) moved)).
    assert (Hlen2 : length σ2 = length σ1) by apply length_set_children.
    assert (Hch2 : get_children σ2 p ≡ₚ sroot <$> stay).
    { unfold σ2. rewrite get_children_set_children_eq by lia.
      apply (set_diff_moved mv).
      - by rewrite Hch, Hsplit.
      - by rewrite <- Hsplit.
      - intros c. rewrite Hmv. set_solver. }
    assert (Hndsplit : NoDup ((mv ≫= nodes) ++ (stay ≫= nodes))).
    { rewrite <- bind_app. by rewrite <- Hsplit. }
    assert (Hsub : ∀ m, m ∈ (mv ≫= nodes) ++ (stay ≫= nodes) <-> m ∈ ks ≫= nodes).
    { intros m. rewrite <- bind_app. by rewrite <- Hsplit. }
    assert (Hstay2 : Forall (repr σ2) stay).
    { eapply repr_forest_frame; [done..|].
      intros m Hm. apply get_children_set_children_ne.
      intros ->. apply Hp_notin, Hsub. set_solver. }
    assert (Hr2 : repr σ2 tx1).
    { eapply repr_frame; [done..|].
      intros m Hm. apply get_children_set_children_ne.
      intros ->. rewrite Hn1 in Hm. apply elem_of_app in Hm as [Hm|Hm].
      - done.
      - apply Hp_notin, Hsub. set_solver. }
    assert (Hst2 : static σ2 = static σ).
    { unfold σ2. by rewrite static_set_children. }
    destruct (order_shapes stay (get_children σ2 p) Hch2) as (stay' & Hstay' & ->).
    assert (Hnd2 : NoDup (nodes tx1 ++ (stay' ≫= nodes))).
    { rewrite Hn1, Hstay'. rewrite <- app_assoc.
      apply NoDup_app. split_and!; [done| |done].
      intros m Hm Hm'%Hsub. by apply (Hdisj' m). }
    assert (Hscope2 : ∀ m, m ∈ nodes tx1 ++ (stay' ≫= nodes) ->
                           m ∈ (ks ≫= nodes) ++ nodes tx).
    { intros m. rewrite Hn1, Hstay'. set_solver. }
    rewrite <- Hroot1.
    eapply outcome_bind.
    { eapply outcome_weaken;
        [apply (nest_loop_spec fuel _ IH stay' σ2 tx1 Hr2)|..].
      - by rewrite Hstay'.
      - done.
      - intros Hfuel. simpl.
        pose proof (submseteq_length _ _ (NoDup_submseteq _ _ Hnd2 Hscope2)).
        lia.
      - exact Hscope2.
      - done.
      - intros a H. exact H. }
    intros [σ3|].
    + intros (pend' & Hpend' & Hroots & Hnp & Hst3 & Hf3). simpl.
      exists (Sh p pend'). split_and!.
      * constructor.
        -- apply static_length in Hst3. lia.
        -- rewrite Hf3.
           ++ by rewrite Hch2, Hroots, Hstay'.
           ++ intros Hin%Hscope2. set_solver.
        -- done.
      * done.
      * simpl. f_equiv. rewrite Hnp, Hstay', Hn1, Hsplit, bind_app.
        apply perm_rot3.
      * split; [by rewrite Hst3|].
        intros m Hm. rewrite Hf3.
        -- unfold σ2. rewrite get_children_set_children_ne by set_solver.
           apply Hf1. rewrite Hnodes'. set_solver.
        -- intros Hin%Hscope2. set_solver.
    + intros _. simpl.
      assert (Hxnot : sroot tx1 ∉ get_children σ2 p).
      { rewrite Hch2, Hroot1. intros Hin%sroot_in_forest.
        apply (Hdisj' (sroot tx)); [|done]. apply Hsub. set_solver. }
      exists (Sh p (stay ++ [tx1])). split_and!.
      * constructor.
        -- rewrite length_set_children. lia.
        -- rewrite get_children_set_children_eq by lia.
           unfold set_add. rewrite bool_decide_eq_false_2 by done.
           by rewrite Hch2, fmap_app.
        -- eapply repr_forest_frame; [apply length_set_children| |].
           ++ apply Forall_app. split; [done|]. by constructor.
           ++ intros m Hm. apply get_children_set_children_ne.
              intros ->. rewrite bind_app in Hm. simpl in Hm.
              rewrite app_nil_r, Hn1 in Hm. apply Hp_notin, Hsub.
              set_solver.
      * done.
      * simpl. f_equiv. rewrite bind_app. simpl. rewrite app_nil_r.
        rewrite Hn1, Hsplit, bind_app. apply perm_rot3.
      * split; [by rewrite static_set_children|].
        intros m Hm. rewrite get_children_set_children_ne by set_solver.
        unfold σ2.
        rewrite get_children_set_children_ne by set_solver.
        apply Hf1. rewrite Hnodes'. set_solver.
Qed.

(** The loop of [create_tree] adds the elements one by one to a tree that
    does not hold them yet. *)
Lemma add_all_spec fuel :
  ∀ (elements : list nat) σ t,
    repr σ t -> Forall (λ e, repr σ (Sh e [])) elements ->
    NoDup (nodes t ++ elements) ->
    outcome fuel σ (length (nodes t ++ elements)) (below t ++ elements)
      (λ σ', ∃ t', repr σ' t' ∧ sroot t' = sroot t
                   ∧ nodes t' ≡ₚ nodes t ++ elements
                   ∧ frame σ σ' (nodes t ++ elements))
      (add_all order fuel σ (sroot t) elements).
Proof.
  intros elements. induction elements as [|e elements IH]; intros σ t Ht He Hnd.
  - simpl. exists t. rewrite app_nil_r. split_and!; [done..|apply frame_refl].
  - simpl add_all. apply Forall_cons in He as [He Hrest].
    assert (Hnd1 : NoDup (nodes t ++ nodes (Sh e []))).
    { simpl. change (e :: elements) with ([e] ++ elements) in Hnd.
      rewrite app_assoc in Hnd. by apply NoDup_app in Hnd as [? _]. }
    eapply outcome_bind.
    { eapply outcome_weaken; [apply (add_child_spec fuel σ t (Sh e []) Ht He Hnd1)|..].
      - simpl. rewrite !length_app. simpl. lia.
      - simpl. set_solver.
      - done.
      - intros a H. exact H. }
    intros σ1 (t1 & Ht1 & Hroot1 & Hn1 & Hst1 & Hf1). simpl in Hn1, Hf1.
    rewrite <- Hroot1.
    assert (Hrest1 : Forall (λ e, repr σ1 (Sh e [])) elements).
    { rewrite Forall_forall in Hrest. apply Forall_forall. intros e' He'.
      eapply repr_frame; [by apply static_length|by apply Hrest|].
      simpl. intros m Hm%list_elem_of_singleton. subst m. apply Hf1.
      change (e :: elements) with ([e] ++ elements) in Hnd.
      rewrite app_assoc in Hnd.
      apply NoDup_app in Hnd as (_ & Hd & _). intros Hin. by apply (Hd e'). }
    eapply outcome_weaken; [apply (IH σ1 t1 Ht1 Hrest1)|..].
    + rewrite Hn1. by rewrite <- app_assoc.
    + rewrite Hn1. rewrite !length_app. simpl. lia.
    + intros m. rewrite (below_perm t t1 [e] Hroot1 Hn1). set_solver.
    + done.
    + intros σ' (t' & Ht' & Hroot' & Hn' & Hfr).
      exists t'. split_and!; [done|done| |].
      * rewrite Hn', Hn1. by rewrite <- app_assoc.
      * eapply frame_trans; [by split|exact Hfr|..].
        -- set_solver.
        -- intros m. rewrite Hn1. set_solver.
Qed.

(** [create_tree] on freshly parsed annotations: the store ends as a tree
    below the sentinel that holds exactly the parsed elements. *)
Lemma build_spec fuel (annotations : list annotation) :
  let n := length annotations in
  outcome fuel ((parse_annotations annotations).1
                  ++ [mkElement "root" (mkBBox 0 0 0 0) None []])
    (S n) (seq 0 n)
    (λ '(σ', root), root = n ∧ length σ' = S n
       ∧ (∀ m, get_bbox σ' m =
               get_bbox ((parse_annotations annotations).1
                           ++ [mkElement "root" (mkBBox 0 0 0 0) None []]) m)
       ∧ ∃ t, repr σ' t ∧ sroot t = root ∧ nodes t ≡ₚ root :: seq 0 n)
    (build order fuel annotations).
Proof.
  intros n. unfold build, create_tree. simpl.
  set (σ := (λ a, mkElement (ann_class a) (ann_bbox a) (Some (ann_class_id a)) [])
              <$> annotations).
  set (σ0 := σ ++ [mkElement "root" (mkBBox 0 0 0 0) None []]).
  assert (Hlenσ : length σ = n) by (unfold σ; by rewrite length_fmap).
  assert (Hlen0 : length σ0 = S n).
  { unfold σ0. rewrite length_app. simpl. lia. }
  assert (Hch0 : ∀ m, get_children σ0 m = []).
  { intros m. unfold get_children, σ0.
    destruct (decide (m < length σ)%nat) as [Hm|Hm].
    - rewrite lookup_app_l by done. unfold σ. rewrite list_lookup_fmap.
      by destruct (annotations !! m).
    - rewrite lookup_app_r by lia.
      destruct (m - length σ)%nat as [|[|?]]; done. }
  rewrite Hlenσ.
  assert (Hroot : repr σ0 (Sh n [])).
  { constructor; [lia|by rewrite Hch0|constructor]. }
  eapply outcome_bind.
  { eapply outcome_weaken; [apply (add_all_spec fuel (seq 0 n) σ0 (Sh n []) Hroot)|..].
    - apply Forall_forall. intros e He%elem_of_seq.
      constructor; [lia|by rewrite Hch0|constructor].
    - simpl. apply NoDup_cons. split; [|apply NoDup_seq].
      intros He%elem_of_seq. lia.
    - simpl. rewrite length_seq. lia.
    - done.
    - done.
    - intros a H. exact H. }
  intros σ' (t' & Ht' & Hroot' & Hn' & Hst & Hfr). simpl.
  split_and!.
  - done.
  - apply static_length in Hst. lia.
  - intros m. by apply static_bbox.
  - by exists t'.
Qed.

End BuilderCorrect.

(** ** What a represented tree says about the object graph *)

Lemma forest_NoDup_member (ks : list shape) k :
  NoDup (ks ≫= nodes) -> k ∈ ks -> NoDup (nodes k).
Proof.
  induction ks as [|k0 ks IH]; [by intros _ ?%elem_of_nil|].
  rewrite bind_cons. intros (Hk0 & _ & Hks)%NoDup_app [->|Hk]%elem_of_cons; auto.
Qed.

Lemma forest_unique (ks : list shape) k k' x :
  NoDup (ks ≫= nodes) -> k ∈ ks -> k' ∈ ks ->
  x ∈ nodes k -> x ∈ nodes k' -> k = k'.
Proof.
  induction ks as [|k0 ks IH]; [by intros _ ?%elem_of_nil|].
  rewrite bind_cons. intros (_ & Hd & Hks)%NoDup_app.
  intros [->|Hk]%elem_of_cons [->|Hk']%elem_of_cons Hx Hx'.
  - done.
  - exfalso. apply (Hd x Hx). by eapply forest_nodes_elem.
  - exfalso. apply (Hd x Hx'). by eapply forest_nodes_elem.
  - by apply IH.
Qed.

Lemma repr_child_closed σ t a b :
  repr σ t -> a ∈ nodes t -> child_of σ a b -> b ∈ nodes t.
Proof.
  induction t as [n ks IH] using shape_ind'.
  intros Hr Ha Hab. inversion Hr as [? ? Hn Hc Hks]; subst.
  simpl in Ha. apply elem_of_cons in Ha as [->|Ha].
  - unfold child_of in Hab. rewrite Hc in Hab.
    simpl. apply list_elem_of_further. by apply sroot_in_forest.
  - apply list_elem_of_bind in Ha as (k & Ha & Hk).
    rewrite Forall_forall in IH, Hks.
    simpl. apply list_elem_of_further.
    eapply forest_nodes_elem; [done|]. by apply (IH k Hk (Hks k Hk)).
Qed.

Lemma repr_descendant_closed σ t a b :
  repr σ t -> a ∈ nodes t -> descendant σ a b -> b ∈ nodes t.
Proof.
  intros Hr Ha Hd. induction Hd as [a b Hab|a b c Hab _ IH].
  - by eapply repr_child_closed.
  - apply IH. by eapply repr_child_closed.
Qed.

Lemma descendant_trans_child σ a b c :
  descendant σ a b -> child_of σ b c -> descendant σ a c.
Proof.
  intros Hd Hbc. induction Hd as [a b Hab|a b b' Hab _ IH].
  - eapply desc_step; [done|]. by apply desc_child.
  - eapply desc_step; [done|]. by apply IH.
Qed.

(** Below the root of a represented tree every node is a descendant. *)
Lemma repr_reach σ t m :
  repr σ t -> m ∈ nodes t -> m = sroot t ∨ descendant σ (sroot t) m.
Proof.
  induction t as [n ks IH] using shape_ind'.
  intros Hr Hm. inversion Hr as [? ? Hn Hc Hks]; subst.
  simpl in Hm. apply elem_of_cons in Hm as [->|Hm]; [by left|right].
  apply list_elem_of_bind in Hm as (k & Hm & Hk).
  rewrite Forall_forall in IH, Hks.
  assert (Hnk : child_of σ n (sroot k)).
  { unfold child_of. rewrite Hc. apply list_elem_of_fmap. eauto. }
  destruct (IH k Hk (Hks k Hk) Hm) as [->|Hd].
  - by apply desc_child.
  - by eapply desc_step.
Qed.

(** No cycle passes through a tree whose node list has no repetition. *)
Lemma repr_acyclic σ t a :
  repr σ t -> NoDup (nodes t) -> a ∈ nodes t -> ¬ descendant σ a a.
Proof.
  induction t as [n ks IH] using shape_ind'.
  intros Hr Hnd Ha Hcyc. inversion Hr as [? ? Hn Hc Hks]; subst.
  simpl in Hnd, Ha. apply NoDup_cons in Hnd as [Hn_notin Hndks].
  rewrite Forall_forall in IH, Hks.
  apply elem_of_cons in Ha as [->|Ha].
  - assert (Hfirst : ∃ c, child_of σ n c ∧ (c = n ∨ descendant σ c n)).
    { inversion Hcyc; subst; eauto. }
    destruct Hfirst as (c & Hnc & Hcn).
    unfold child_of in Hnc. rewrite Hc in Hnc.
    apply list_elem_of_fmap in Hnc as (k & -> & Hk).
    apply Hn_notin. eapply forest_nodes_elem; [done|].
    destruct Hcn as [<-|Hd]; [apply sroot_in_nodes|].
    eapply repr_descendant_closed; [by apply Hks| apply sroot_in_nodes|done].
  - apply list_elem_of_bind in Ha as (k & Ha & Hk).
    apply (IH k Hk (Hks k Hk)); [by eapply forest_NoDup_member|done..].
Qed.

(** Inside such a tree a node is the child of one node only. *)
Lemma repr_unique_parent σ t a b x :
  repr σ t -> NoDup (nodes t) -> a ∈ nodes t -> b ∈ nodes t ->
  child_of σ a x -> child_of σ b x -> a = b.
Proof.
  induction t as [n ks IH] using shape_ind'.
  intros Hr Hnd Ha Hb Hax Hbx. inversion Hr as [? ? Hn Hc Hks]; subst.
  simpl in Hnd, Ha, Hb. apply NoDup_cons in Hnd as [Hn_notin Hndks].
  rewrite Forall_forall in IH, Hks.
  assert (Hroot_case : ∀ b', b' ∈ ks ≫= nodes -> child_of σ n x ->
                             child_of σ b' x -> False).
  { intros b' Hb' Hnx Hb'x.
    apply list_elem_of_bind in Hb' as (k & Hb' & Hk).
    unfold child_of in Hnx. rewrite Hc in Hnx.
    apply list_elem_of_fmap in Hnx as (k' & -> & Hk').
    assert (Hxk : sroot k' ∈ nodes k).
    { eapply repr_child_closed; [by apply Hks|done..]. }
    assert (k' = k) as ->.
    { eapply forest_unique; [done..|apply sroot_in_nodes|done]. }
    apply (repr_acyclic σ k (sroot k)); [by apply Hks| |apply sroot_in_nodes|].
    - by eapply forest_NoDup_member.
    - destruct (repr_reach σ k b' (Hks k Hk) Hb') as [->|Hd].
      + by apply desc_child.
      + by eapply descendant_trans_child. }
  apply elem_of_cons in Ha as [->|Ha]; apply elem_of_cons in Hb as [->|Hb].
  - done.
  - exfalso. by eapply Hroot_case.
  - exfalso. by eapply Hroot_case.
  - apply list_elem_of_bind in Ha as (k & Ha & Hk).
    apply list_elem_of_bind in Hb as (k' & Hb & Hk').
    assert (k = k') as <-.
    { eapply (forest_unique ks k k' x); [done..| |].
      - eapply repr_child_closed; [by apply Hks|done..].
      - eapply repr_child_closed; [by apply Hks|done..]. }
    apply (IH k Hk (Hks k Hk)); [by eapply forest_NoDup_member|done..].
Qed.

(** The preorder walk lists the nodes of the represented tree. *)
Lemma bind_perm_ext {A B} (f g : A -> list B) (l : list A) :
  (∀ x, x ∈ l -> f x ≡ₚ g x) -> l ≫= f ≡ₚ l ≫= g.
Proof.
  induction l as [|x l IH]; intros H; [done|].
  rewrite !bind_cons. f_equiv.
  - apply H, list_elem_of_here.
  - apply IH. intros y Hy. apply H. by apply list_elem_of_further.
Qed.

Lemma height_le_size t : (height t <= length (nodes t))%nat.
Proof.
  induction t as [n ks IH] using shape_ind'. simpl.
  apply le_n_S. induction IH as [|k ks Hk _ IHks]; [apply Nat.le_0_l|].
  rewrite bind_cons, length_app. simpl. lia.
Qed.

Lemma height_member (ks : list shape) k :
  k ∈ ks -> (height k <= foldr Nat.max 0%nat (map height ks))%nat.
Proof.
  induction ks as [|k0 ks IH]; [by intros ?%elem_of_nil|].
  intros [->|Hk]%elem_of_cons; simpl; [lia|]. specialize (IH Hk). lia.
Qed.

Lemma preorder_repr σ t fuel :
  repr σ t -> (height t <= fuel)%nat -> preorder fuel σ (sroot t) ≡ₚ nodes t.
Proof.
  revert fuel. induction t as [n ks IH] using shape_ind'.
  intros fuel Hr Hh. inversion Hr as [? ? Hn Hc Hks]; subst.
  simpl in Hh. destruct fuel as [|fuel]; [lia|]. simpl. f_equiv.
  rewrite Hc. rewrite list_fmap_bind.
  apply bind_perm_ext. intros k Hk. simpl.
  rewrite Forall_forall in IH, Hks. apply IH; [done|by apply Hks|].
  pose proof (height_member ks k Hk). lia.
Qed.

(** ** The tree built by [create_tree] *)

Lemma get_bbox_parsed (annotations : list annotation) i a :
  annotations !! i = Some a ->
  get_bbox ((parse_annotations annotations).1
              ++ [mkElement "root" (mkBBox 0 0 0 0) None []]) i = ann_bbox a.
Proof.
  intros Hi. unfold get_bbox. simpl.
  rewrite lookup_app_l.
  - by rewrite list_lookup_fmap, Hi.
  - rewrite length_fmap. by eapply lookup_lt_Some.
Qed.

(** Whenever [create_tree] returns, the store is a tree below the sentinel
    whose nodes are the sentinel and the parsed elements, each once. *)
Lemma build_tree order (annotations : list annotation) fuel σ root :
  (∀ l, order l ≡ₚ l) ->
  build order fuel annotations = Ok (σ, root) ->
  root = length annotations
  ∧ length σ = S (length annotations)
  ∧ (∀ i a, annotations !! i = Some a -> get_bbox σ i = ann_bbox a)
  ∧ ∃ t, repr σ t ∧ sroot t = root
         ∧ nodes t ≡ₚ root :: seq 0 (length annotations).
Proof.
  intros Hperm Hb. pose proof (build_spec order Hperm fuel annotations) as H.
  simpl in H. rewrite Hb in H. simpl in H.
  destruct H as (Hroot & Hlen & Hbox & t & Ht).
  split_and!; [done|done| |by exists t].
  intros i a Hi. rewrite Hbox. by apply get_bbox_parsed.
Qed.

(** With a recursion bound above the number of elements, [create_tree]
    returns unless a box of zero area is met. *)
Lemma build_total order (annotations : list annotation) :
  (∀ l, order l ≡ₚ l) ->
  Forall (λ a, area (ann_bbox a) ≠ 0) annotations ->
  ∃ σ root, build order (S (length annotations)) annotations = Ok (σ, root).
Proof.
  intros Hperm Harea.
  pose proof (build_spec order Hperm (S (length annotations)) annotations) as H.
  simpl in H. destruct (build order _ annotations) as [[σ root]|[]]; simpl in H.
  - eauto.
  - destruct H as (m & Hm%elem_of_seq & Hzero). exfalso.
    destruct (lookup_lt_is_Some_2 annotations m) as [a Ha]; [lia|].
    pose proof (get_bbox_parsed annotations m a Ha) as Hbox.
    simpl in Hbox. rewrite Hbox in Hzero.
    rewrite Forall_forall in Harea. apply (Harea a); [|done].
    by eapply list_elem_of_lookup_2.
  - done.
  - lia.
Qed.

Lemma child_of_in_store σ a x : child_of σ a x -> (a < length σ)%nat.
Proof.
  unfold child_of, get_children. intros Hx.
  destruct (σ !! a) as [e|] eqn:E; [by eapply lookup_lt_Some|].
  by apply elem_of_nil in Hx.
Qed.

Lemma descendant_in_store σ a b : descendant σ a b -> (a < length σ)%nat.
Proof. intros [? ? H|? ? ? H _]; by eapply child_of_in_store. Qed.

(** C2.  For every batch of parsed annotations and every iteration order of
    the children sets: whenever [create_tree] returns, walking the store from
    the sentinel meets the sentinel and every input element exactly once
    (however deep the walk is allowed to go), no element is its own
    descendant, and no element is a child of two parents.  [create_tree] does
    return, with a recursion bound above the batch size, when no box has zero
    area. *)
Theorem create_tree_well_formed (order : list nat -> list nat)
    (annotations : list annotation) :
  (∀ l, order l ≡ₚ l) ->
  (∀ fuel σ root,
     build order fuel annotations = Ok (σ, root) ->
     (∀ depth, (length annotations < depth)%nat ->
        preorder depth σ root ≡ₚ root :: (parse_annotations annotations).2)
     ∧ (∀ a, ¬ descendant σ a a)
     ∧ (∀ a b x, child_of σ a x -> child_of σ b x -> a = b))
  ∧ (Forall (λ a, area (ann_bbox a) ≠ 0) annotations ->
     ∃ σ root, build order (S (length annotations)) annotations = Ok (σ, root)).
Proof.
  intros Hperm. split; [|by apply build_total].
  intros fuel σ root Hb.
  destruct (build_tree order annotations fuel σ root Hperm Hb)
    as (Hroot & Hlen & _ & t & Ht & Hrt & Hnodes).
  assert (Hnd : NoDup (nodes t)).
  { rewrite Hnodes, Hroot. apply NoDup_cons. split; [|apply NoDup_seq].
    intros ?%elem_of_seq. lia. }
  assert (Hall : ∀ m, (m < length σ)%nat -> m ∈ nodes t).
  { intros m Hm. rewrite Hnodes, Hroot, Hlen in *.
    destruct (decide (m = length annotations)) as [->|Hne].
    - apply list_elem_of_here.
    - apply list_elem_of_further, elem_of_seq. lia. }
  split_and!.
  - intros depth Hdepth. simpl. rewrite <- Hnodes, <- Hrt.
    apply preorder_repr; [done|].
    pose proof (height_le_size t) as Hh.
    rewrite Hnodes in Hh. simpl in Hh. rewrite length_seq in Hh. lia.
  - intros a Hcyc. apply (repr_acyclic σ t a Ht Hnd); [|done].
    apply Hall. by eapply descendant_in_store.
  - intros a b x Hax Hbx.
    apply (repr_unique_parent σ t a b x Ht Hnd); [| |done..].
    + apply Hall. by eapply child_of_in_store.
    + apply Hall. by eapply child_of_in_store.
Qed.

Lemma create_tree_well_formed_witness :
  ∃ σ root,
    build insertion_order 4 chain_batch = Ok (σ, root)
    ∧ preorder 4 σ root ≡ₚ root :: (parse_annotations chain_batch).2
    ∧ (∀ a, ¬ descendant σ a a)
    ∧ (∀ a b x, child_of σ a x -> child_of σ b x -> a = b).
Proof.
  destruct (create_tree_well_formed insertion_order chain_batch) as [Hpart Htot].
  { intros l. reflexivity. }
  destruct Htot as (σ & root & Hb).
  { repeat constructor; vm_compute; discriminate. }
  exists σ, root. split; [exact Hb|].
  destruct (Hpart _ σ root Hb) as (Hwalk & Hcyc & Hpar).
  split; [|by split]. apply Hwalk. simpl. lia.
Defined.

(** C4, as stated, fails: the builder has no validation step.  The box
    [50,50,10,10] (element 1) and a box of area -400 (element 2) are both
    placed below the sentinel (reference 3) next to the valid element 0. *)
Lemma inverted_box_not_rejected :
  area (mkBBox 50 50 10 60) = -400
  ∧ built_nodes insertion_order 4 inverted_batch = Ok [3; 0; 1; 2]%nat.
Proof. split; reflexivity. Qed.

(** C4, amended.  Whenever [create_tree] returns, every element of the batch
    is below the sentinel with the box it came with, whatever the area of
    that box is; none is left out. *)
Theorem create_tree_keeps_every_element (order : list nat -> list nat)
    (annotations : list annotation) fuel σ root i a :
  (∀ l, order l ≡ₚ l) ->
  build order fuel annotations = Ok (σ, root) ->
  annotations !! i = Some a ->
  descendant σ root i ∧ get_bbox σ i = ann_bbox a.
Proof.
  intros Hperm Hb Hi.
  destruct (build_tree order annotations fuel σ root Hperm Hb)
    as (Hroot & Hlen & Hbox & t & Ht & Hrt & Hnodes).
  split; [|by apply Hbox].
  apply lookup_lt_Some in Hi.
  destruct (repr_reach σ t i Ht) as [Heq|Hd].
  - rewrite Hnodes. apply list_elem_of_further, elem_of_seq. lia.
  - lia.
  - by rewrite <- Hrt.
Qed.

Lemma create_tree_keeps_every_element_witness :
  ∃ σ, build insertion_order 4 inverted_batch = Ok (σ, 3%nat)
       ∧ descendant σ 3 2 ∧ get_bbox σ 2 = mkBBox 50 50 10 60.
Proof.
  eexists. split; [reflexivity|].
  apply (create_tree_keeps_every_element insertion_order inverted_batch 4 _ 3%nat 2%nat
           (mkAnnotation "icon" 2 (mkBBox 50 50 10 60))).
  - intros l. reflexivity.
  - reflexivity.
  - reflexivity.
Defined.

(** C6, as stated, fails.  In the tree built from [chain_batch] the button
    (element 1) sits below element 0, which sits below element 2.  Handing
    the button to the sentinel (reference 3) again makes it a child of the
    sentinel too, while it stays a child of element 0.  No set walked on the
    way holds more than one element, so the iteration order plays no part. *)
Lemma reinsert_changes_tree :
  reinsert insertion_order 4 chain_batch 1 3 = Ok ([2], [2; 1])%nat
  ∧ reinsert insertion_order 4 chain_batch 1 0 = Ok ([1], [1])%nat.
Proof. split; reflexivity. Qed.

(** C6, amended.  Handing a node an element that is already one of its
    direct children leaves the store as it is. *)
Theorem add_child_direct_child_idempotent (order : list nat -> list nat)
    fuel σ self child :
  child ∈ get_children σ self ->
  add_child order (S fuel) σ self child = Ok σ.
Proof.
  intros Hin. simpl. by rewrite bool_decide_eq_true_2.
Qed.

Lemma add_child_direct_child_idempotent_witness :
  ∃ σ, build insertion_order 4 chain_batch = Ok (σ, 3%nat)
       ∧ add_child insertion_order 4 σ 3 2 = Ok σ.
Proof.
  eexists. split; [reflexivity|].
  apply (add_child_direct_child_idempotent insertion_order 3 _ 3%nat 2%nat).
  vm_compute. apply list_elem_of_here.
Defined.

(** ** Renderer *)

Lemma insert_sorted_fmap {A B} (f : A -> B) (key : B -> Z) x (l : list A) :
  insert_sorted key (f x) (f <$> l) = f <$> insert_sorted (key ∘ f) x l.
Proof.
  induction l as [|y l IH]; [done|].
  rewrite fmap_cons. cbn [insert_sorted compose].
  destruct (key (f x) <=? key (f y)); [done|].
  rewrite fmap_cons. by rewrite IH.
Qed.

Lemma sorted_fmap {A B} (f : A -> B) (key : B -> Z) (l : list A) :
  sorted key (f <$> l) = f <$> sorted (key ∘ f) l.
Proof.
  induction l as [|x l IH]; [done|].
  rewrite fmap_cons. cbn [sorted]. rewrite IH. apply insert_sorted_fmap.
Qed.

Lemma ordered_with_fmap {B} orientation (g : Tree -> B) c b i ks :
  ordered_with orientation ((λ child, (child, g child)) <$> ks)
  = (λ child, (child, g child)) <$> get_children_order orientation (Node c b i ks).
Proof.
  unfold ordered_with, get_children_order. simpl.
  destruct (String.eqb orientation "flex-row"); apply sorted_fmap.
Qed.

(** [generate_element_html] in the form the source gives it: the recursive
    calls run over the children as [get_children_order] arranges them. *)
Lemma generate_element_html_eq element indent :
  generate_element_html element indent =
    let ordered_children :=
      get_children_order (determine_flex_direction element) element in
    if String.eqb (t_class element) "root" then
      join ((λ child, generate_element_html child indent) <$> ordered_children)
    else if negb (self_closing (t_class element)) then
      opening_tag element indent
        +:+ join ((λ child, generate_element_html child (S indent))
                    <$> ordered_children)
        +:+ closing_tag element indent
    else opening_tag element indent.
Proof.
  destruct element as [c b i ks].
  cbn [generate_element_html t_class].
  rewrite (ordered_with_fmap _ generate_element_html c b i ks).
  rewrite <- !list_fmap_compose. reflexivity.
Qed.


Lemma append_assoc (s1 s2 s3 : string) : (s1 +:+ s2) +:+ s3 = s1 +:+ s2 +:+ s3.
Proof.
  induction s1 as [|ch s1 IH]; [done|].
  change (String ch (s1 +:+ s2) +:+ s3 = String ch (s1 +:+ s2 +:+ s3)).
  change (String ch ((s1 +:+ s2) +:+ s3) = String ch (s1 +:+ s2 +:+ s3)).
  by f_equal.
Qed.



Lemma self_closing_cases c :
  self_closing c = true -> c = "image" ∨ c = "input".
Proof.
  unfold self_closing. intros [H|H]%orb_true_iff; apply String.eqb_eq in H; auto.
Qed.




(** C9, as stated, fails for the label "root", which is not self-closing:
    its children are rendered, but no closing tag follows them. *)
Lemma root_label_has_no_closing_tag :
  self_closing (t_class labelled_root) = false
  ∧ generate_element_html labelled_root 0 = generate_element_html sample_button 0
  ∧ generate_element_html labelled_root 0 ≠
      opening_tag labelled_root 0
        +:+ join ((λ child, generate_element_html child 1)
                    <$> get_children_order
                          (determine_flex_direction labelled_root) labelled_root)
        +:+ closing_tag labelled_root 0.
Proof. split; [reflexivity|]. split; [reflexivity|]. vm_compute. discriminate. Qed.

(** C9, amended.  An "image" or "input" element is rendered as its opening
    line alone, whatever children it carries.  Every other element whose
    label is not "root" is rendered as its opening line, then its children
    in order one level deeper, then its closing tag. *)
Theorem render_children_rule c b i ks indent :
  (self_closing c = true ->
     generate_element_html (Node c b i ks) indent = opening_tag (Node c b i []) indent)
  ∧ (self_closing c = false -> c ≠ "root" ->
     generate_element_html (Node c b i ks) indent =
       opening_tag (Node c b i ks) indent
         +:+ join ((λ child, generate_element_html child (S indent))
                     <$> get_children_order
                           (determine_flex_direction (Node c b i ks)) (Node c b i ks))
         +:+ closing_tag (Node c b i ks) indent).
Proof.
  split.
  - intros Hsc. rewrite generate_element_html_eq. cbn [t_class]. cbv zeta.
    rewrite Hsc. destruct (self_closing_cases c Hsc) as [->| ->]; reflexivity.
  - intros Hsc Hroot. rewrite generate_element_html_eq. cbn [t_class]. cbv zeta.
    rewrite Hsc. apply String.eqb_neq in Hroot. by rewrite Hroot.
Qed.

Lemma render_children_rule_witness :
  generate_element_html (Node "input" (mkBBox 0 0 9 9) (Some 3) [sample_button]) 1 =
    opening_tag (Node "input" (mkBBox 0 0 9 9) (Some 3) []) 1
  ∧ generate_element_html (Node "header" (mkBBox 0 0 100 20) (Some 0) [sample_button]) 0 =
      opening_tag (Node "header" (mkBBox 0 0 100 20) (Some 0) [sample_button]) 0
        +:+ join ((λ child, generate_element_html child 1)
                    <$> get_children_order
                          (determine_flex_direction
                             (Node "header" (mkBBox 0 0 100 20) (Some 0) [sample_button]))
                          (Node "header" (mkBBox 0 0 100 20) (Some 0) [sample_button]))
        +:+ closing_tag (Node "header" (mkBBox 0 0 100 20) (Some 0) [sample_button]) 0.
Proof.
  split.
  - apply (render_children_rule "input" (mkBBox 0 0 9 9) (Some 3) [sample_button] 1).
    reflexivity.
  - apply (render_children_rule "header" (mkBBox 0 0 100 20) (Some 0) [sample_button] 0).
    + reflexivity.
    + discriminate.
Defined.

(** C7, as stated, fails: an image of width zero is rendered with the
    dimension 0 in its placeholder address; nothing is substituted. *)
Lemma image_zero_width_no_fallback :
  x2 (t_bbox flat_image) - x1 (t_bbox flat_image) = 0
  ∧ generate_element_html flat_image 0 =
      "<img src='https://picsum.photos/0/20?random=1' alt='Placeholder' class='relative object-cover' data-id='0' data-type='image'>"
        +:+ nl.
Proof. split; reflexivity. Qed.

(** C7, amended.  For every box, degenerate or not, an "image" element is
    rendered (the renderer is total) with the width [x2 - x1] and the height
    [y2 - y1] of its box written as they are. *)
Theorem image_dimensions b i ks indent :
  generate_element_html (Node "image" b i ks) indent =
    indent_str indent +:+ "<img src='https://picsum.photos/"
      +:+ pretty (x2 b - x1 b) +:+ "/" +:+ pretty (y2 b - y1 b)
      +:+ "?random=1' alt='Placeholder' class='relative object-cover' data-id='"
      +:+ fmt_id i +:+ "' data-type='image'>" +:+ nl.
Proof.
  rewrite generate_element_html_eq. cbn [t_class]. cbv zeta.
  change (String.eqb "image" "root") with false.
  change (self_closing "image") with true. cbv iota. cbn [negb].
  unfold opening_tag. cbn [t_class t_bbox]. cbv zeta.
  change (String.eqb "image" "image") with true. cbv iota.
  change (get_element_tag "image") with "img".
  change (get_tailwind_classes (Node "image" b i ks)) with "relative object-cover".
  unfold data_attrs. cbn [t_id t_class].
  rewrite !append_assoc. reflexivity.
Qed.

(** ** Alignment analyzer *)












(** ** Zero-area boxes *)

(** C3.  The code divides by the area of the target without a guard: for
    the zero-area target [5,5,5,5] inside [0,0,10,10] the early return for
    disjoint boxes does not fire and [0 / 0] raises [ZeroDivisionError]
    instead of giving 0. *)
Theorem overlap_ratio_zero_area_raises :
  area (mkBBox 5 5 5 5) = 0
  ∧ disjoint_boxes (mkBBox 5 5 5 5) (mkBBox 0 0 10 10) = false
  ∧ overlap_ratio (mkBBox 5 5 5 5) (mkBBox 0 0 10 10) = Raise ZeroDivisionError.
Proof. split_and!; reflexivity. Qed.

(** C1.  [contains] computes the overlap ratio of the child before it
    looks at the other two conditions.  For the parent [0,0,10,10] and the
    zero-width child [0,0,0,30] the centre (0,15) of the child is outside
    the parent, so the answer should be [False]; the call raises
    [ZeroDivisionError] instead. *)
Theorem contains_zero_area_child_raises :
  center_contained (mkBBox 0 0 10 10) (mkBBox 0 0 0 30) = false
  ∧ area (mkBBox 0 0 0 30) < area (mkBBox 0 0 10 10)
  ∧ contains (mkBBox 0 0 10 10) (mkBBox 0 0 0 30) = Raise ZeroDivisionError.
Proof. split_and!; reflexivity. Qed.

(** ** The end-to-end scenario *)

(** The button becomes the child of the header, and the markup is a
    [header] tag around one [button] tag. *)
Lemma header_button_scenario :
  contains (mkBBox 0 0 100 20) (mkBBox 10 5 40 15) = Ok true
  ∧ built_nodes insertion_order 3 header_batch = Ok [2; 0; 1]%nat
  ∧ render_annotations insertion_order 3 header_batch =
      Ok (Some
        ("<header class='relative flex flex-col items-center justify-between w-full bg-white p-4' data-id='0' data-type='header'>" +:+ nl
         +:+ "  <button class='relative px-4 py-2 bg-blue-500 text-white rounded hover:bg-blue-600' data-id='1' data-type='button'>Click me" +:+ nl
         +:+ "  </button>" +:+ nl
         +:+ "</header>" +:+ nl)).
Proof. split_and!; reflexivity. Qed.

(** * Further properties of the geometry *)

Lemma not_disjoint_spec self child :
  disjoint_boxes self child = false <->
  x_left self child <= x_right self child ∧ y_top self child <= y_bottom self child.
Proof.
  unfold disjoint_boxes. rewrite orb_false_iff, !Z.ltb_ge. done.
Qed.

(** Boxes that are not disjoint both have their corners in order, and the
    clipped rectangle lies inside each of them. *)
Lemma not_disjoint_bounds self child :
  disjoint_boxes self child = false ->
  x1 self <= x2 self ∧ y1 self <= y2 self
  ∧ x1 child <= x2 child ∧ y1 child <= y2 child
  ∧ 0 <= intersection self child <= area self.
Proof.
  intros [Hx Hy]%not_disjoint_spec.
  unfold intersection, area, x_left, x_right, y_top, y_bottom in *.
  split_and!; try lia.
  - apply Z.mul_nonneg_nonneg; lia.
  - apply Z.mul_le_mono_nonneg; lia.
Qed.

Lemma Qdiv_range (i a : Z) :
  0 <= i <= a -> a ≠ 0 -> (0 <= inject_Z i / inject_Z a <= 1)%Q.
Proof.
  intros Hi Ha. destruct a as [|p|p]; [done| |lia].
  unfold Qle, Qdiv, Qmult, Qinv, inject_Z. simpl. lia.
Qed.

(** X1.  The docstring of [overlap_ratio]: whenever a ratio is returned, for any
    two boxes, well-formed or not, it lies between 0 and 1. *)
Theorem overlap_ratio_range self child q :
  overlap_ratio self child = Ok q -> (0 <= q <= 1)%Q.
Proof.
  unfold overlap_ratio, truediv.
  destruct (disjoint_boxes self child) eqn:Hd.
  - intros [= <-]. split; [apply Qle_refl|]. unfold Qle. simpl. lia.
  - destruct (Z.eqb_spec (area self) 0) as [|Ha]; [discriminate|].
    intros [= <-]. apply Qdiv_range; [|done].
    by apply not_disjoint_bounds in Hd as (_ & _ & _ & _ & ?).
Qed.

Lemma overlap_ratio_range_witness :
  overlap_ratio (mkBBox 10 5 40 15) (mkBBox 0 0 100 20) = Ok (300 # 300)
  ∧ (0 <= 300 # 300 <= 1)%Q.
Proof.
  split; [reflexivity|].
  apply (overlap_ratio_range (mkBBox 10 5 40 15) (mkBBox 0 0 100 20)).
  reflexivity.
Defined.

Lemma inverted_disjoint a b :
  inverted a -> disjoint_boxes a b = true ∧ disjoint_boxes b a = true.
Proof.
  intros Hinv. unfold disjoint_boxes, x_left, x_right, y_top, y_bottom.
  rewrite !orb_true_iff, !Z.ltb_lt. destruct Hinv; split; lia.
Qed.

Lemma contains_disjoint self child :
  disjoint_boxes child self = true -> contains self child = Ok false.
Proof.
  intros Hd. unfold contains, overlap_ratio. rewrite Hd. simpl.
  f_equal. apply andb_false_iff. by right.
Qed.

Lemma contains_inverted_false a b :
  inverted a -> contains a b = Ok false ∧ contains b a = Ok false.
Proof.
  intros Hinv. destruct (inverted_disjoint a b Hinv) as [H1 H2].
  split; by apply contains_disjoint.
Qed.

(** X2.  A box with swapped corners takes part in no containment: [contains]
    answers [False], without an exception, with such a box on either side. *)
Theorem contains_inverted a b :
  inverted a -> contains a b = Ok false ∧ contains b a = Ok false.
Proof.
  intros Hinv. destruct (inverted_disjoint a b Hinv) as [H1 H2].
  split; by apply contains_disjoint.
Qed.

Lemma contains_inverted_witness :
  contains (mkBBox 50 50 10 10) (mkBBox 0 0 100 100) = Ok false
  ∧ contains (mkBBox 0 0 100 100) (mkBBox 50 50 10 10) = Ok false.
Proof.
  apply (contains_inverted (mkBBox 50 50 10 10) (mkBBox 0 0 100 100)).
  left. reflexivity.
Defined.

Lemma overlap_positive self child q :
  overlap_ratio self child = Ok q -> (0 < q)%Q ->
  disjoint_boxes self child = false ∧ area self ≠ 0
  ∧ q = (inject_Z (intersection self child) / inject_Z (area self))%Q.
Proof.
  unfold overlap_ratio, truediv. destruct (disjoint_boxes self child).
  - intros [= <-] H. by apply Qlt_irrefl in H.
  - destruct (Z.eqb_spec (area self) 0); [discriminate|]. by intros [= <-] _.
Qed.

Lemma Qdiv_gt_six_tenths (i a : Z) :
  0 < a -> ((6 # 10) < inject_Z i / inject_Z a)%Q <-> 3 * a < 5 * i.
Proof.
  intros Ha. destruct a as [|p|p]; [lia| |lia].
  unfold Qlt, Qdiv, Qmult, Qinv, inject_Z. simpl. lia.
Qed.

Lemma contains_true_Z self child :
  contains self child = Ok true <->
  (2 * x1 self <= x1 child + x2 child <= 2 * x2 self
   ∧ 2 * y1 self <= y1 child + y2 child <= 2 * y2 self)
  ∧ area child < area self
  ∧ disjoint_boxes child self = false
  ∧ 0 < area child
  ∧ 3 * area child < 5 * intersection child self.
Proof.
  rewrite contains_true_iff, center_contained_spec. split.
  - intros (Hc & Ha & q & Hq & Hlt).
    assert (Hpos : (0 < q)%Q) by (eapply Qlt_trans; [|exact Hlt]; reflexivity).
    destruct (overlap_positive child self q Hq Hpos) as (Hd & Hne & ->).
    pose proof (not_disjoint_bounds child self Hd) as (? & ? & _ & _ & Hi).
    assert (Hchild : 0 < area child) by lia.
    refine (conj Hc (conj Ha (conj Hd (conj Hchild _)))).
    by apply Qdiv_gt_six_tenths.
  - intros (Hc & Ha & Hd & Hpos & Hi).
    refine (conj Hc (conj Ha _)).
    exists (inject_Z (intersection child self) / inject_Z (area child))%Q.
    split; [|by apply Qdiv_gt_six_tenths].
    unfold overlap_ratio, truediv. rewrite Hd.
    destruct (Z.eqb_spec (area child) 0); [lia|done].
Qed.


(** X4.  Whenever [contains] answers [True], both boxes have their corners in
    strict order, hence positive width, height and area. *)
Theorem contains_true_well_formed self child :
  contains self child = Ok true ->
  (x1 self < x2 self ∧ y1 self < y2 self)
  ∧ (x1 child < x2 child ∧ y1 child < y2 child).
Proof.
  intros (_ & Ha & Hd & Hpos & _)%contains_true_Z.
  pose proof (not_disjoint_bounds child self Hd) as (? & ? & ? & ? & _).
  unfold area in *. split; split; nia.
Qed.

Lemma contains_true_well_formed_witness :
  (0 < 100 ∧ 0 < 20) ∧ (10 < 40 ∧ 5 < 15).
Proof.
  apply (contains_true_well_formed (mkBBox 0 0 100 20) (mkBBox 10 5 40 15)).
  reflexivity.
Defined.

Lemma contains_true_flip a b :
  contains a b = Ok true -> contains b a = Ok false.
Proof.
  intros H. pose proof H as (_ & Ha & _ & Hpos & _)%contains_true_Z.
  destruct (overlap_ratio_total a b) as [q Hq]; [lia|].
  apply (contains_false_iff b a q Hq). right. left. lia.
Qed.

(** X5.  [contains] is asymmetric: when a box contains another, asking the other
    way round gives [False] (and no exception). *)
Theorem contains_asymmetric a b :
  contains a b = Ok true -> contains b a = Ok false.
Proof.
  intros H. pose proof H as (_ & Ha & _ & Hpos & _)%contains_true_Z.
  destruct (overlap_ratio_total a b) as [q Hq]; [lia|].
  apply (contains_false_iff b a q Hq). right. left. lia.
Qed.

Lemma contains_asymmetric_witness :
  contains (mkBBox 10 5 40 15) (mkBBox 0 0 100 20) = Ok false.
Proof.
  apply (contains_asymmetric (mkBBox 0 0 100 20) (mkBBox 10 5 40 15)).
  reflexivity.
Defined.

(** * Further properties of the builder *)

Lemma bind_Ok {A B} (r : result A) (k : A -> result B) b :
  r ≫= k = Ok b -> ∃ a, r = Ok a ∧ k a = Ok b.
Proof. destruct r as [a|e]; [by exists a|discriminate]. Qed.

(** ** What [add_child] never writes *)

Lemma move_loop_static rec self child :
  (∀ σ a b σ', rec σ a b = Ok σ' -> static σ' = static σ) ->
  ∀ existing σ moved σ' moved',
    move_loop rec self child existing σ moved = Ok (σ', moved') ->
    static σ' = static σ.
Proof.
  intros Hrec existing. induction existing as [|c existing IH];
    intros σ moved σ' moved' H; simpl in H.
  - by injection H as <- _.
  - apply bind_Ok in H as ([] & _ & H).
    + apply bind_Ok in H as (σ1 & H1 & H).
      case_bool_decide; [|discriminate].
      rewrite (IH _ _ _ _ H). by eapply Hrec.
    + by eapply IH.
Qed.

Lemma nest_loop_static rec child :
  (∀ σ a b σ', rec σ a b = Ok σ' -> static σ' = static σ) ->
  ∀ existing σ σ',
    nest_loop rec child existing σ = Ok (Some σ') -> static σ' = static σ.
Proof.
  intros Hrec existing. induction existing as [|c existing IH];
    intros σ σ' H; simpl in H; [discriminate|].
  apply bind_Ok in H as ([] & _ & H).
  - apply bind_Ok in H as (σ1 & H1 & [= <-]). by eapply Hrec.
  - by eapply IH.
Qed.

(** X7.  For any store whatsoever, tree or not: when [add_child] returns, the
    store holds the same objects with the same labels, boxes and ids; only
    [children] sets were written. *)
Theorem add_child_static (order : list nat -> list nat) fuel σ self child σ' :
  add_child order fuel σ self child = Ok σ' ->
  static σ' = static σ.
Proof.
  revert σ self child σ'. induction fuel as [|fuel IH];
    intros σ self child σ' H; simpl in H; [discriminate|].
  case_bool_decide; [by injection H as <-|].
  apply bind_Ok in H as ([σ1 moved] & H1 & H).
  apply move_loop_static in H1; [|exact IH].
  apply bind_Ok in H as (nested & H2 & H).
  destruct nested as [σ3|].
  - injection H as <-. apply nest_loop_static in H2; [|exact IH].
    by rewrite H2, static_set_children.
  - injection H as <-. by rewrite !static_set_children.
Qed.

Lemma add_child_static_witness :
  ∃ σ σ', build insertion_order 4 chain_batch = Ok (σ, 3%nat)
          ∧ add_child insertion_order 4 σ 3 1 = Ok σ'
          ∧ static σ' = static σ.
Proof.
  eexists _, _. split; [reflexivity|]. split; [reflexivity|].
  apply (add_child_static insertion_order 4 _ 3%nat 1%nat). reflexivity.
Defined.

(** ** Parents contain their children, siblings do not contain each other *)

Lemma child_of_set_children σ n cs p x :
  child_of (set_children σ n cs) p x ->
  (p = n ∧ x ∈ cs) ∨ (p ≠ n ∧ child_of σ p x).
Proof.
  unfold child_of. destruct (decide (p = n)) as [->|Hne].
  - destruct (decide (n < length σ)%nat) as [Hn|Hn].
    + rewrite get_children_set_children_eq by done. auto.
    + unfold get_children, set_children.
      rewrite list_lookup_alter_eq, lookup_ge_None_2 by lia.
      by intros ?%elem_of_nil.
  - rewrite get_children_set_children_ne by done. auto.
Qed.

Lemma tidy_static σ σ' root :
  static σ' = static σ ->
  (∀ p x, child_of σ' p x -> child_of σ p x) ->
  tidy σ root -> tidy σ' root.
Proof.
  intros Hst Hsub [He Hs]. split.
  - intros p x Hpx Hp. rewrite !(static_bbox σ σ') by done. auto.
  - intros p c1 c2 H1 H2 Hne. rewrite !(static_bbox σ σ') by done. eauto.
Qed.

Lemma move_loop_tidy rec root self child :
  (∀ σ a b σ',
     tidy σ root ->
     a = root ∨ contains (get_bbox σ a) (get_bbox σ b) = Ok true ->
     rec σ a b = Ok σ' -> tidy σ' root ∧ static σ' = static σ) ->
  ∀ existing σ moved σ' moved',
    tidy σ root ->
    move_loop rec self child existing σ moved = Ok (σ', moved') ->
    tidy σ' root ∧ static σ' = static σ
    ∧ get_children σ' self = get_children σ self
    ∧ (∀ c, c ∈ existing ->
            c ∈ moved' ∨ contains (get_bbox σ child) (get_bbox σ c) = Ok false)
    ∧ (∀ c, c ∈ moved -> c ∈ moved').
Proof.
  intros Hrec existing. induction existing as [|c existing IH];
    intros σ moved σ' moved' Ht H; simpl in H.
  - injection H as <- <-. split_and!; try done. by intros c ?%elem_of_nil.
  - apply bind_Ok in H as (b & Hb & H). destruct b.
    + apply bind_Ok in H as (σ1 & H1 & H).
      case_bool_decide as Hsame; [|discriminate].
      destruct (Hrec σ child c σ1 Ht (or_intror Hb) H1) as [Ht1 Hst1].
      destruct (IH σ1 _ σ' moved' Ht1 H) as (Ht' & Hst' & Hch' & Hex & Hmv).
      split_and!.
      * done.
      * congruence.
      * congruence.
      * intros c' [->|Hc']%elem_of_cons.
        -- left. apply Hmv, elem_of_set_add. by left.
        -- destruct (Hex c' Hc') as [?|Hf]; [by left|right].
           by rewrite !(static_bbox σ σ1) in Hf.
      * intros c' Hc'. apply Hmv, elem_of_set_add. by right.
    + destruct (IH σ moved σ' moved' Ht H) as (Ht' & Hst' & Hch' & Hex & Hmv).
      split_and!; try done.
      intros c' [->|Hc']%elem_of_cons; [by right|by apply Hex].
Qed.

Lemma nest_loop_tidy rec root child :
  (∀ σ a b σ',
     tidy σ root ->
     a = root ∨ contains (get_bbox σ a) (get_bbox σ b) = Ok true ->
     rec σ a b = Ok σ' -> tidy σ' root ∧ static σ' = static σ) ->
  ∀ existing σ r,
    tidy σ root ->
    nest_loop rec child existing σ = Ok r ->
    match r with
    | Some σ' => tidy σ' root ∧ static σ' = static σ
    | None => ∀ c, c ∈ existing ->
                   contains (get_bbox σ c) (get_bbox σ child) = Ok false
    end.
Proof.
  intros Hrec existing. induction existing as [|c existing IH];
    intros σ r Ht H; simpl in H.
  - injection H as <-. by intros c ?%elem_of_nil.
  - apply bind_Ok in H as (b & Hb & H). destruct b.
    + apply bind_Ok in H as (σ1 & H1 & [= <-]).
      by apply (Hrec σ c child σ1 Ht (or_intror Hb)).
    + specialize (IH σ r Ht H). destruct r as [σ'|]; [done|].
      intros c' [->|Hc']%elem_of_cons; [done|by apply IH].
Qed.

Section BuilderInvariants.

Variable order : list nat -> list nat.
Hypothesis order_perm : ∀ l, order l ≡ₚ l.

Lemma add_child_tidy root fuel :
  ∀ σ self child σ',
    tidy σ root ->
    self = root ∨ contains (get_bbox σ self) (get_bbox σ child) = Ok true ->
    add_child order fuel σ self child = Ok σ' ->
    tidy σ' root ∧ static σ' = static σ.
Proof.
  induction fuel as [|fuel IH]; intros σ self child σ' Ht Hpre H;
    simpl in H; [discriminate|].
  case_bool_decide as Hin; [by injection H as <-|].
  apply bind_Ok in H as ([σ1 moved] & H1 & H).
  destruct (move_loop_tidy _ root self child IH _ _ _ _ _ Ht H1)
    as (Ht1 & Hst1 & Hch1 & Hex & _).
  rewrite Hch1 in H.
  set (σ2 := set_children σ1 self (set_diff (get_children σ self) moved)) in H.
  assert (Hst2 : static σ2 = static σ).
  { unfold σ2. by rewrite static_set_children. }
  assert (Hsub2 : ∀ p x, child_of σ2 p x -> child_of σ1 p x).
  { intros p x [[-> Hx]|[_ Hx]]%child_of_set_children; [|done].
    unfold child_of. rewrite Hch1.
    unfold set_diff in Hx. by apply list_elem_of_filter in Hx as [_ ?]. }
  assert (Ht2 : tidy σ2 root).
  { eapply tidy_static; [|exact Hsub2|exact Ht1]. by rewrite Hst2. }
  assert (Hself2 : ∀ c, child_of σ2 self c ->
                        child_of σ self c ∧ c ∉ moved).
  { intros c [[_ Hx]|[? _]]%child_of_set_children; [|done].
    unfold set_diff in Hx. apply list_elem_of_filter in Hx as [? ?]. done. }
  apply bind_Ok in H as (nested & H2 & H).
  pose proof (nest_loop_tidy _ root child IH _ _ _ Ht2 H2) as Hn.
  destruct nested as [σ3|]; injection H as <-.
  - destruct Hn as [Ht3 Hst3]. split; [done|congruence].
  - split; [|by rewrite static_set_children].
    set (σ3 := set_children σ2 self (set_add child (get_children σ2 self))).
    assert (Hst3 : static σ3 = static σ2) by apply static_set_children.
    assert (Hedge : ∀ p x, child_of σ3 p x ->
                           child_of σ2 p x ∨ (p = self ∧ x = child)).
    { intros p x [[-> Hx]|[_ Hx]]%child_of_set_children; [|by left].
      apply elem_of_set_add in Hx as [->|Hx]; [by right|by left]. }
    assert (Hbox : ∀ m, get_bbox σ3 m = get_bbox σ m).
    { intros m. apply static_bbox. congruence. }
    assert (Hbox2 : ∀ m, get_bbox σ2 m = get_bbox σ m).
    { intros m. by apply static_bbox. }
    destruct Ht2 as [He2 Hs2]. split.
    + intros p x Hpx Hp. rewrite !Hbox.
      destruct (Hedge p x Hpx) as [Hold|[-> ->]].
      * rewrite <- !Hbox2. by apply He2.
      * by destruct Hpre.
    + intros p c1 c2 Hc1 Hc2 Hne. rewrite !Hbox.
      destruct (Hedge p c1 Hc1) as [Hold1|[Hp1 Hc1']];
        destruct (Hedge p c2 Hc2) as [Hold2|[Hp2 Hc2']].
      * rewrite <- !Hbox2. by eapply Hs2.
      * subst p c2. rewrite <- !Hbox2. apply Hn.
        rewrite order_perm. exact Hold1.
      * subst p c1. destruct (Hself2 c2 Hold2) as [Hc2σ Hnot].
        destruct (Hex c2) as [?|Hf]; [|done|exact Hf].
        rewrite order_perm. exact Hc2σ.
      * congruence.
Qed.

Lemma add_all_tidy root fuel :
  ∀ elements σ σ',
    tidy σ root ->
    add_all order fuel σ root elements = Ok σ' ->
    tidy σ' root.
Proof.
  intros elements. induction elements as [|e elements IH];
    intros σ σ' Ht H; simpl in H.
  - by injection H as <-.
  - apply bind_Ok in H as (σ1 & H1 & H).
    apply (IH σ1 σ'); [|done].
    by apply (add_child_tidy root fuel σ root e σ1 Ht (or_introl eq_refl)).
Qed.

Lemma build_tidy (annotations : list annotation) fuel σ root :
  build order fuel annotations = Ok (σ, root) -> tidy σ root.
Proof.
  unfold build, create_tree. simpl. intros H.
  apply bind_Ok in H as (σ' & H & [= <- <-]).
  eapply add_all_tidy; [|exact H].
  assert (Hempty : ∀ p x,
            ¬ child_of (((λ a, mkElement (ann_class a) (ann_bbox a)
                                 (Some (ann_class_id a)) []) <$> annotations)
                          ++ [mkElement "root" (mkBBox 0 0 0 0) None []]) p x).
  { intros p x. unfold child_of, get_children.
    destruct (decide (p < length annotations)%nat) as [Hp|Hp].
    - rewrite lookup_app_l by (by rewrite length_fmap).
      rewrite list_lookup_fmap. destruct (annotations !! p); by intros ?%elem_of_nil.
    - rewrite lookup_app_r by (rewrite length_fmap; lia).
      rewrite length_fmap.
      destruct (p - length annotations)%nat as [|[|?]]; by intros ?%elem_of_nil. }
  split.
  - intros p x Hpx. by apply Hempty in Hpx.
  - intros p c1 c2 Hc1. by apply Hempty in Hc1.
Qed.

End BuilderInvariants.

Lemma descendant_last σ a b :
  descendant σ a b -> ∃ p, child_of σ p b ∧ (p = a ∨ descendant σ a p).
Proof.
  induction 1 as [a b Hab|a b c Hab _ (p & Hp & IH)].
  - exists a. auto.
  - exists p. split; [done|]. right. destruct IH as [->|IH].
    + by apply desc_child.
    + by eapply desc_step.
Qed.

(** Every parsed element has a parent in the built tree. *)
Lemma build_has_parent order (annotations : list annotation) fuel σ root i :
  (∀ l, order l ≡ₚ l) ->
  build order fuel annotations = Ok (σ, root) ->
  (i < length annotations)%nat ->
  ∃ p, child_of σ p i ∧ (p = root ∨ (p < length annotations)%nat).
Proof.
  intros Hperm Hb Hi.
  destruct (build_tree order annotations fuel σ root Hperm Hb)
    as (Hroot & Hlen & _ & t & Ht & Hrt & Hnodes).
  destruct (repr_reach σ t i Ht) as [Heq|Hd].
  - rewrite Hnodes. apply list_elem_of_further, elem_of_seq. lia.
  - lia.
  - rewrite Hrt in Hd. apply descendant_last in Hd as (p & Hp & _).
    exists p. split; [done|].
    apply child_of_in_store in Hp. rewrite Hlen in Hp.
    destruct (decide (p = root)); [by left|right; lia].
Qed.

(** X8.  In the built tree every element that is not directly below the sentinel
    is contained by its parent: [contains] answers [True] for the two boxes,
    so the child is strictly smaller than its parent. *)
Theorem build_parent_contains_child (order : list nat -> list nat)
    (annotations : list annotation) fuel σ root p x a b :
  (∀ l, order l ≡ₚ l) ->
  build order fuel annotations = Ok (σ, root) ->
  child_of σ p x ->
  annotations !! p = Some a -> annotations !! x = Some b ->
  contains (ann_bbox a) (ann_bbox b) = Ok true
  ∧ area (ann_bbox b) < area (ann_bbox a).
Proof.
  intros Hperm Hb Hpx Ha Hx.
  destruct (build_tree order annotations fuel σ root Hperm Hb)
    as (Hroot & _ & Hbox & _).
  destruct (build_tidy order Hperm annotations fuel σ root Hb) as [He _].
  assert (Hc : contains (ann_bbox a) (ann_bbox b) = Ok true).
  { rewrite <- (Hbox p a Ha), <- (Hbox x b Hx). apply He; [done|].
    apply lookup_lt_Some in Ha. lia. }
  split; [done|]. by apply contains_true_Z in Hc as (_ & ? & _).
Qed.

Lemma build_parent_contains_child_witness :
  ∃ σ, build insertion_order 4 chain_batch = Ok (σ, 3%nat)
       ∧ contains (mkBBox 4 0 13 10) (mkBBox 9 0 13 10) = Ok true
       ∧ area (mkBBox 9 0 13 10) < area (mkBBox 4 0 13 10).
Proof.
  eexists. split; [reflexivity|].
  eapply (build_parent_contains_child insertion_order chain_batch 4 _ 3%nat
           0%nat 1%nat
           (mkAnnotation "section" 0 (mkBBox 4 0 13 10))
           (mkAnnotation "button" 1 (mkBBox 9 0 13 10))).
  - intros l. reflexivity.
  - reflexivity.
  - vm_compute. apply list_elem_of_here.
  - reflexivity.
  - reflexivity.
Defined.

(** X9.  In the built tree no element contains one of its siblings, below the
    sentinel or below any other parent. *)
Theorem build_siblings_apart (order : list nat -> list nat)
    (annotations : list annotation) fuel σ root p c1 c2 a b :
  (∀ l, order l ≡ₚ l) ->
  build order fuel annotations = Ok (σ, root) ->
  child_of σ p c1 -> child_of σ p c2 -> c1 ≠ c2 ->
  annotations !! c1 = Some a -> annotations !! c2 = Some b ->
  contains (ann_bbox a) (ann_bbox b) = Ok false.
Proof.
  intros Hperm Hb H1 H2 Hne Ha Hc.
  destruct (build_tree order annotations fuel σ root Hperm Hb)
    as (_ & _ & Hbox & _).
  destruct (build_tidy order Hperm annotations fuel σ root Hb) as [_ Hs].
  rewrite <- (Hbox c1 a Ha), <- (Hbox c2 b Hc). by eapply Hs.
Qed.

Lemma build_siblings_apart_witness :
  ∃ σ, build insertion_order 4 scattered_batch = Ok (σ, 3%nat)
       ∧ contains (mkBBox 0 0 10 10) (mkBBox 20 0 30 10) = Ok false.
Proof.
  eexists. split; [reflexivity|].
  eapply (build_siblings_apart insertion_order scattered_batch 4 _ 3%nat
           3%nat 0%nat 1%nat
           (mkAnnotation "button" 0 (mkBBox 0 0 10 10))
           (mkAnnotation "image" 1 (mkBBox 20 0 30 10))).
  - intros l. reflexivity.
  - reflexivity.
  - vm_compute. apply list_elem_of_here.
  - vm_compute. apply list_elem_of_further, list_elem_of_here.
  - discriminate.
  - reflexivity.
  - reflexivity.
Defined.

(** X10.  When no box of the batch contains another, the tree is flat: every
    element is a direct child of the sentinel. *)
Theorem build_flat (order : list nat -> list nat)
    (annotations : list annotation) fuel σ root i :
  (∀ l, order l ≡ₚ l) ->
  (∀ a b, a ∈ annotations -> b ∈ annotations ->
          contains (ann_bbox a) (ann_bbox b) ≠ Ok true) ->
  build order fuel annotations = Ok (σ, root) ->
  (i < length annotations)%nat ->
  child_of σ root i.
Proof.
  intros Hperm Hnone Hb Hi.
  destruct (build_has_parent order annotations fuel σ root i Hperm Hb Hi)
    as (p & Hp & [->|Hlt]); [done|exfalso].
  destruct (lookup_lt_is_Some_2 annotations p Hlt) as [a Ha].
  destruct (lookup_lt_is_Some_2 annotations i Hi) as [b Hb'].
  destruct (build_tree order annotations fuel σ root Hperm Hb)
    as (Hroot & _ & Hbox & _).
  destruct (build_tidy order Hperm annotations fuel σ root Hb) as [He _].
  apply (Hnone a b).
  - by eapply list_elem_of_lookup_2.
  - by eapply list_elem_of_lookup_2.
  - rewrite <- (Hbox p a Ha), <- (Hbox i b Hb'). apply He; [done|lia].
Qed.

Lemma build_flat_witness :
  ∃ σ, build insertion_order 4 scattered_batch = Ok (σ, 3%nat)
       ∧ child_of σ 3 1.
Proof.
  eexists. split; [reflexivity|].
  apply (build_flat insertion_order scattered_batch 4 _ 3%nat 1%nat).
  - intros l. reflexivity.
  - intros a b Ha Hb. unfold scattered_batch in Ha, Hb.
    repeat (apply elem_of_cons in Ha as [->|Ha]);
      repeat (apply elem_of_cons in Hb as [->|Hb]);
      try (by apply elem_of_nil in Ha); try (by apply elem_of_nil in Hb);
      vm_compute; discriminate.
  - reflexivity.
  - simpl. lia.
Defined.

(** X11.  An element whose box has swapped corners always ends as a direct child
    of the sentinel and never receives a child. *)
Theorem build_inverted_leaf (order : list nat -> list nat)
    (annotations : list annotation) fuel σ root i a :
  (∀ l, order l ≡ₚ l) ->
  build order fuel annotations = Ok (σ, root) ->
  annotations !! i = Some a ->
  inverted (ann_bbox a) ->
  child_of σ root i ∧ get_children σ i = [].
Proof.
  intros Hperm Hb Ha Hinv.
  pose proof (lookup_lt_Some _ _ _ Ha) as Hi.
  destruct (build_tree order annotations fuel σ root Hperm Hb)
    as (Hroot & _ & Hbox & _).
  destruct (build_tidy order Hperm annotations fuel σ root Hb) as [He _].
  split.
  - destruct (build_has_parent order annotations fuel σ root i Hperm Hb Hi)
      as (p & Hp & [->|Hlt]); [done|exfalso].
    assert (Hc : contains (get_bbox σ p) (get_bbox σ i) = Ok true).
    { apply He; [done|lia]. }
    rewrite (Hbox i a Ha) in Hc.
    destruct (contains_inverted_false (ann_bbox a) (get_bbox σ p) Hinv) as [_ Hf].
    congruence.
  - destruct (get_children σ i) as [|x l] eqn:Hch; [done|exfalso].
    assert (Hc : contains (get_bbox σ i) (get_bbox σ x) = Ok true).
    { apply He; [|lia]. unfold child_of. rewrite Hch. apply list_elem_of_here. }
    rewrite (Hbox i a Ha) in Hc.
    destruct (contains_inverted_false (ann_bbox a) (get_bbox σ x) Hinv) as [Hf _].
    congruence.
Qed.

Lemma build_inverted_leaf_witness :
  ∃ σ, build insertion_order 4 inverted_batch = Ok (σ, 3%nat)
       ∧ child_of σ 3 1 ∧ get_children σ 1 = [].
Proof.
  eexists. split; [reflexivity|].
  apply (build_inverted_leaf insertion_order inverted_batch 4 _ 3%nat 1%nat
           (mkAnnotation "button" 1 (mkBBox 50 50 10 10))).
  - intros l. reflexivity.
  - reflexivity.
  - reflexivity.
  - left. reflexivity.
Defined.

(** ** A nested pair is built the same way in either input order *)

Lemma add_child_unfold order fuel σ self child :
  add_child order (S fuel) σ self child =
    if bool_decide (child ∈ get_children σ self) then Ok σ
    else
      '(σ1, children_to_move) ←
        move_loop (add_child order fuel) self child (order (get_children σ self)) σ [];
      let σ2 :=
        set_children σ1 self (set_diff (get_children σ1 self) children_to_move) in
      nested ← nest_loop (add_child order fuel) child (order (get_children σ2 self)) σ2;
      match nested with
      | Some σ3 => Ok σ3
      | None => Ok (set_children σ2 self (set_add child (get_children σ2 self)))
      end.
Proof. reflexivity. Qed.

Lemma set_children_twice σ n cs cs' :
  set_children (set_children σ n cs) n cs' = set_children σ n cs'.
Proof.
  unfold set_children. apply list_eq. intros i.
  destruct (decide (n = i)) as [->|Hne].
  - rewrite !list_lookup_alter_eq. by destruct (σ !! i).
  - by rewrite !list_lookup_alter_ne.
Qed.

Lemma get_children_set_children_nil σ n :
  get_children σ n = [] -> get_children (set_children σ n []) n = [].
Proof.
  intros Hn. destruct (decide (n < length σ)%nat).
  - by apply get_children_set_children_eq.
  - unfold get_children, set_children.
    by rewrite list_lookup_alter_eq, lookup_ge_None_2 by lia.
Qed.

Section Pair.

Variable order : list nat -> list nat.
Hypothesis order_perm : ∀ l, order l ≡ₚ l.

Lemma order_nil : order [] = [].
Proof. apply Permutation_nil_r. by rewrite order_perm. Qed.

Lemma order_singleton x : order [x] = [x].
Proof. apply Permutation_singleton_r. by rewrite order_perm. Qed.

(** An element without children takes any new element as a direct child. *)
Lemma add_child_childless fuel σ self child :
  get_children σ self = [] ->
  add_child order (S fuel) σ self child = Ok (set_children σ self [child]).
Proof.
  intros Hch. rewrite add_child_unfold, Hch.
  rewrite bool_decide_eq_false_2 by apply not_elem_of_nil.
  rewrite order_nil. simpl. rewrite Hch. unfold set_diff. simpl.
  rewrite get_children_set_children_nil by done.
  rewrite order_nil. simpl. by rewrite set_children_twice.
Qed.

(** X12.  A box and a box it contains end as parent and child below the
    sentinel whichever of the two comes first in the batch: the later and
    larger one takes the earlier one over. *)
Theorem build_nested_pair (a b : annotation) fuel :
  contains (ann_bbox a) (ann_bbox b) = Ok true ->
  (∃ σ, build order (S (S fuel)) [a; b] = Ok (σ, 2%nat)
        ∧ get_children σ 2 = [0%nat] ∧ get_children σ 0 = [1%nat]
        ∧ get_children σ 1 = [])
  ∧ (∃ σ, build order (S (S fuel)) [b; a] = Ok (σ, 2%nat)
          ∧ get_children σ 2 = [1%nat] ∧ get_children σ 1 = [0%nat]
          ∧ get_children σ 0 = []).
Proof.
  intros Hab. pose proof (contains_true_flip _ _ Hab) as Hba.
  split.
  - unfold build, create_tree, parse_annotations.
    cbn [fmap list_fmap app length seq add_all].
    rewrite add_child_childless by reflexivity.
    cbn [mbind result_bind].
    match goal with |- context [add_child order _ ?s 2%nat 1%nat] => set (σ1 := s) end.
    rewrite add_child_unfold.
    change (get_children σ1 2) with [0%nat].
    rewrite bool_decide_eq_false_2 by (by intros [=]%list_elem_of_singleton).
    rewrite order_singleton. cbn [move_loop].
    change (get_bbox σ1 1) with (ann_bbox b).
    change (get_bbox σ1 0) with (ann_bbox a).
    rewrite Hba. cbn [mbind result_bind]. cbv zeta.
    change (get_children σ1 2) with [0%nat].
    change (set_diff [0%nat] []) with [0%nat].
    match goal with |- context [nest_loop _ _ _ ?s] => set (σ2 := s) end.
    change (get_children σ2 2) with [0%nat].
    rewrite order_singleton. cbn [nest_loop].
    change (get_bbox σ2 1) with (ann_bbox b).
    change (get_bbox σ2 0) with (ann_bbox a).
    rewrite Hab. cbn [mbind result_bind].
    rewrite add_child_childless by reflexivity.
    cbn [mbind result_bind].
    eexists. split; [reflexivity|]. split_and!; reflexivity.
  - unfold build, create_tree, parse_annotations.
    cbn [fmap list_fmap app length seq add_all].
    rewrite add_child_childless by reflexivity.
    cbn [mbind result_bind].
    match goal with |- context [add_child order _ ?s 2%nat 1%nat] => set (σ1 := s) end.
    rewrite add_child_unfold.
    change (get_children σ1 2) with [0%nat].
    rewrite bool_decide_eq_false_2 by (by intros [=]%list_elem_of_singleton).
    rewrite order_singleton. cbn [move_loop].
    change (get_bbox σ1 1) with (ann_bbox a).
    change (get_bbox σ1 0) with (ann_bbox b).
    rewrite Hab. cbn [mbind result_bind].
    rewrite add_child_childless by reflexivity.
    cbn [mbind result_bind].
    rewrite bool_decide_eq_true_2 by reflexivity.
    cbn [move_loop mbind result_bind]. cbv zeta.
    match goal with |- context [nest_loop _ _ _ ?s] => set (σ2 := s) end.
    change (get_children σ2 2) with (@nil nat).
    rewrite order_nil. cbn [nest_loop mbind result_bind].
    eexists. split; [reflexivity|]. split_and!; reflexivity.
Qed.

End Pair.

Lemma build_nested_pair_witness :
  (∃ σ, build insertion_order 2 header_batch = Ok (σ, 2%nat)
        ∧ get_children σ 2 = [0%nat] ∧ get_children σ 0 = [1%nat]
        ∧ get_children σ 1 = [])
  ∧ (∃ σ, build insertion_order 2
            [mkAnnotation "button" 1 (mkBBox 10 5 40 15);
             mkAnnotation "header" 0 (mkBBox 0 0 100 20)] = Ok (σ, 2%nat)
          ∧ get_children σ 2 = [1%nat] ∧ get_children σ 1 = [0%nat]
          ∧ get_children σ 0 = []).
Proof.
  apply (build_nested_pair insertion_order (λ l, reflexivity l)
           (mkAnnotation "header" 0 (mkBBox 0 0 100 20))
           (mkAnnotation "button" 1 (mkBBox 10 5 40 15)) 0).
  reflexivity.
Defined.

(** ** The whole pipeline *)




(** X16.  An empty batch gives the sentinel alone and the empty markup, whatever
    the recursion bound. *)
Theorem render_annotations_empty (order : list nat -> list nat) fuel :
  (∀ l, order l ≡ₚ l) ->
  build order fuel [] = Ok ([mkElement "root" (mkBBox 0 0 0 0) None []], 0%nat)
  ∧ render_annotations order fuel [] = Ok (Some "").
Proof.
  intros Hperm. split; [reflexivity|].
  unfold render_annotations. simpl.
  by rewrite (order_nil order Hperm).
Qed.

Lemma render_annotations_empty_witness :
  build insertion_order 0 [] = Ok ([mkElement "root" (mkBBox 0 0 0 0) None []], 0%nat)
  ∧ render_annotations insertion_order 0 [] = Ok (Some "").
Proof.
  apply (render_annotations_empty insertion_order 0). intros l. reflexivity.
Defined.

(** * Further properties of the renderer *)

(** ** [sorted] is a stable sort *)

Lemma insert_sorted_perm {A} (key : A -> Z) x (l : list A) :
  insert_sorted key x l ≡ₚ x :: l.
Proof.
  induction l as [|y l IH]; [done|]. simpl.
  destruct (key x <=? key y); [done|]. rewrite IH. apply perm_swap.
Qed.

Lemma sorted_perm {A} (key : A -> Z) (l : list A) : sorted key l ≡ₚ l.
Proof.
  induction l as [|x l IH]; [done|]. simpl.
  by rewrite insert_sorted_perm, IH.
Qed.

Lemma insert_sorted_ascending {A} (key : A -> Z) x (l : list A) :
  StronglySorted (λ a b, key a <= key b) l ->
  StronglySorted (λ a b, key a <= key b) (insert_sorted key x l).
Proof.
  induction 1 as [|y l Hl IH Hy]; simpl.
  - repeat constructor.
  - destruct (Z.leb_spec (key x) (key y)) as [Hle|Hgt].
    + constructor; [by constructor|].
      constructor; [done|].
      eapply Forall_impl; [exact Hy|]. simpl. intros z Hz. lia.
    + constructor; [done|].
      rewrite insert_sorted_perm. constructor; [lia|done].
Qed.

Lemma sorted_ascending {A} (key : A -> Z) (l : list A) :
  StronglySorted (λ a b, key a <= key b) (sorted key l).
Proof.
  induction l as [|x l IH]; simpl; [constructor|].
  by apply insert_sorted_ascending.
Qed.

Lemma insert_sorted_stable {A} (key : A -> Z) k x (l : list A) :
  filter (λ a, key a = k) (insert_sorted key x l)
  = filter (λ a, key a = k) (x :: l).
Proof.
  induction l as [|y l IH]; [done|]. simpl.
  destruct (Z.leb_spec (key x) (key y)) as [Hle|Hgt]; [done|].
  rewrite (filter_cons _ y), IH, !filter_cons.
  repeat case_decide; try done; lia.
Qed.

Lemma sorted_stable {A} (key : A -> Z) k (l : list A) :
  filter (λ a, key a = k) (sorted key l) = filter (λ a, key a = k) l.
Proof.
  induction l as [|x l IH]; [done|]. simpl.
  by rewrite insert_sorted_stable, !filter_cons, IH.
Qed.

Lemma get_children_order_sorted_by_key orientation element :
  get_children_order orientation element
  = sorted (order_key orientation) (t_children element).
Proof.
  unfold get_children_order, order_key.
  by destruct (String.eqb orientation "flex-row").
Qed.

(** X17.  [get_children_order] returns every child exactly once, in ascending
    order of the key: [x1] for "flex-row", [y1] for anything else. *)
Theorem get_children_order_sorts orientation element :
  get_children_order orientation element ≡ₚ t_children element
  ∧ StronglySorted
      (λ a b, order_key orientation a <= order_key orientation b)
      (get_children_order orientation element).
Proof.
  rewrite get_children_order_sorted_by_key.
  split; [apply sorted_perm|apply sorted_ascending].
Qed.

(** X18.  [get_children_order] is stable: children with equal keys keep the
    order in which the children set yields them. *)
Theorem get_children_order_stable orientation element k :
  filter (λ c, order_key orientation c = k)
         (get_children_order orientation element)
  = filter (λ c, order_key orientation c = k) (t_children element).
Proof.
  rewrite get_children_order_sorted_by_key. apply sorted_stable.
Qed.

(** ** The direction does not depend on the enumeration of the children *)









(** ** The markup does not depend on it either, when the keys differ *)






(** * Further properties of the builder: exceptions and the top level *)

(** X14.  Building a tree from parsed annotations never stops because a children
    set was altered while it was walked, and it stops on a division by zero
    only when the batch holds a box of zero area. *)
Theorem build_exceptions (order : list nat -> list nat)
    (annotations : list annotation) fuel :
  (∀ l, order l ≡ₚ l) ->
  build order fuel annotations ≠ Raise RuntimeError
  ∧ (build order fuel annotations = Raise ZeroDivisionError ->
     ∃ a, a ∈ annotations ∧ area (ann_bbox a) = 0).
Proof.
  intros Hperm.
  pose proof (build_spec order Hperm fuel annotations) as H. simpl in H.
  split.
  - intros Hr. by rewrite Hr in H.
  - intros Hz. rewrite Hz in H. simpl in H.
    destruct H as (m & Hm%elem_of_seq & Hzero).
    destruct (lookup_lt_is_Some_2 annotations m) as [a Ha]; [lia|].
    pose proof (get_bbox_parsed annotations m a Ha) as Hbox.
    simpl in Hbox. rewrite Hbox in Hzero.
    exists a. split; [by eapply list_elem_of_lookup_2|done].
Qed.

Lemma build_exceptions_witness :
  build insertion_order 3
    [mkAnnotation "div" 0 (mkBBox 0 0 10 10);
     mkAnnotation "text" 1 (mkBBox 0 0 0 30)] = Raise ZeroDivisionError
  ∧ ∃ a, a ∈ [mkAnnotation "div" 0 (mkBBox 0 0 10 10);
              mkAnnotation "text" 1 (mkBBox 0 0 0 30)]
         ∧ area (ann_bbox a) = 0.
Proof.
  split; [reflexivity|].
  apply (build_exceptions insertion_order
           [mkAnnotation "div" 0 (mkBBox 0 0 10 10);
            mkAnnotation "text" 1 (mkBBox 0 0 0 30)] 3).
  - intros l. reflexivity.
  - reflexivity.
Defined.

(** X13.  When one box of the batch contains every other box, its element is the
    one and only child of the sentinel. *)
Theorem build_single_container (order : list nat -> list nat)
    (annotations : list annotation) fuel σ root u a :
  (∀ l, order l ≡ₚ l) ->
  build order fuel annotations = Ok (σ, root) ->
  annotations !! u = Some a ->
  (∀ i b, annotations !! i = Some b -> i ≠ u ->
          contains (ann_bbox a) (ann_bbox b) = Ok true) ->
  ∀ x, child_of σ root x <-> x = u.
Proof.
  intros Hperm Hb Ha Hall.
  pose proof (lookup_lt_Some _ _ _ Ha) as Hu.
  destruct (build_tree order annotations fuel σ root Hperm Hb)
    as (Hroot & Hlen & Hbox & t & Ht & Hrt & Hnodes).
  destruct (build_tidy order Hperm annotations fuel σ root Hb) as [He Hs].
  assert (Hnd : NoDup (nodes t)).
  { rewrite Hnodes, Hroot. apply NoDup_cons. split; [|apply NoDup_seq].
    intros ?%elem_of_seq. lia. }
  assert (Hu_root : child_of σ root u).
  { destruct (build_has_parent order annotations fuel σ root u Hperm Hb Hu)
      as (p & Hp & [->|Hlt]); [done|exfalso].
    destruct (lookup_lt_is_Some_2 annotations p Hlt) as [b Hpb].
    assert (Hpu : p ≠ u).
    { intros ->. apply (repr_acyclic σ t u Ht Hnd).
      - rewrite Hnodes. apply list_elem_of_further, elem_of_seq. lia.
      - by apply desc_child. }
    pose proof (Hall p b Hpb Hpu) as Hc. apply contains_true_flip in Hc.
    assert (Hc' : contains (get_bbox σ p) (get_bbox σ u) = Ok true).
    { apply He; [done|lia]. }
    rewrite (Hbox p b Hpb), (Hbox u a Ha) in Hc'. congruence. }
  intros x. split; [|by intros ->].
  intros Hx. destruct (decide (x = u)) as [|Hne]; [done|exfalso].
  assert (Hxlt : (x < length annotations)%nat).
  { assert (Hxin : x ∈ nodes t).
    { eapply repr_child_closed; [done| |exact Hx].
      rewrite <- Hrt. apply sroot_in_nodes. }
    rewrite Hnodes in Hxin. apply elem_of_cons in Hxin as [->|Hxin].
    - exfalso. apply (repr_acyclic σ t root Ht Hnd).
      + rewrite <- Hrt. apply sroot_in_nodes.
      + by apply desc_child.
    - apply elem_of_seq in Hxin. lia. }
  destruct (lookup_lt_is_Some_2 annotations x Hxlt) as [b Hxb].
  pose proof (Hall x b Hxb Hne) as Hc.
  assert (Hc' : contains (get_bbox σ u) (get_bbox σ x) = Ok false).
  { by apply (Hs root u x). }
  rewrite (Hbox u a Ha), (Hbox x b Hxb) in Hc'. congruence.
Qed.

Lemma build_single_container_witness :
  ∃ σ, build insertion_order 3 header_batch = Ok (σ, 2%nat)
       ∧ (child_of σ 2 0 <-> 0%nat = 0%nat).
Proof.
  eexists. split; [reflexivity|].
  eapply (build_single_container insertion_order header_batch 3 _ 2%nat 0%nat
            (mkAnnotation "header" 0 (mkBBox 0 0 100 20))).
  - intros l. reflexivity.
  - reflexivity.
  - reflexivity.
  - intros [|[|i]] b Hb Hne; [done| |done].
    injection Hb as <-. reflexivity.
Defined.

(** * Further properties of the renderer: tags and attributes *)

Lemma eqb_unknown c l :
  c ∉ known_labels -> l ∈ known_labels -> String.eqb c l = false.
Proof. intros Hc Hl. apply String.eqb_neq. by intros ->. Qed.

(** X21.  An element whose label is none of the known ones is rendered as a
    [div] with the base class only, around its children. *)
Theorem unknown_label_fallback c b i ks indent :
  c ∉ known_labels ->
  get_element_tag c = "div"
  ∧ get_tailwind_classes (Node c b i ks) = "relative "
  ∧ generate_element_html (Node c b i ks) indent =
      (indent_str indent +:+ "<div class='relative ' data-id='" +:+ fmt_id i
         +:+ "' data-type='" +:+ c +:+ "'>" +:+ nl)
      +:+ join ((λ child, generate_element_html child (S indent))
                  <$> get_children_order
                        (determine_flex_direction (Node c b i ks)) (Node c b i ks))
      +:+ (indent_str indent +:+ "</div>" +:+ nl).
Proof.
  intros Hc.
  assert (Heq : ∀ l, l ∈ known_labels -> String.eqb c l = false)
    by (intros l; by apply eqb_unknown).
  assert (Htag : get_element_tag c = "div").
  { unfold get_element_tag.
    rewrite !Heq by (unfold known_labels; set_solver). done. }
  assert (Hcls : get_tailwind_classes (Node c b i ks) = "relative ").
  { unfold get_tailwind_classes. cbn [t_class].
    rewrite !Heq by (unfold known_labels; set_solver). done. }
  split; [done|]. split; [done|].
  rewrite generate_element_html_eq. cbv zeta. cbn [t_class].
  unfold self_closing, opening_tag, closing_tag, data_attrs.
  cbn [t_class t_id t_bbox]. rewrite Htag, Hcls.
  rewrite !Heq by (unfold known_labels; set_solver).
  cbn [orb negb]. rewrite !append_assoc. reflexivity.
Qed.

Lemma unknown_label_fallback_witness :
  get_element_tag "card" = "div"
  ∧ get_tailwind_classes (Node "card" (mkBBox 0 0 5 5) (Some 7) []) = "relative "
  ∧ generate_element_html (Node "card" (mkBBox 0 0 5 5) (Some 7) []) 1 =
      (indent_str 1 +:+ "<div class='relative ' data-id='" +:+ fmt_id (Some 7)
         +:+ "' data-type='" +:+ "card" +:+ "'>" +:+ nl)
      +:+ join ((λ child, generate_element_html child 2)
                  <$> get_children_order
                        (determine_flex_direction
                           (Node "card" (mkBBox 0 0 5 5) (Some 7) []))
                        (Node "card" (mkBBox 0 0 5 5) (Some 7) []))
      +:+ (indent_str 1 +:+ "</div>" +:+ nl).
Proof.
  apply (unknown_label_fallback "card" (mkBBox 0 0 5 5) (Some 7) [] 1).
  unfold known_labels. intros H.
  repeat (apply elem_of_cons in H as [H|H]; [discriminate H|]).
  by apply elem_of_nil in H.
Defined.

(** X22.  Every opening tag carries the id and the label of the element it was
    made from: [data-id='...' data-type='...'] closes the tag. *)
Theorem opening_tag_data_attrs element indent :
  ∃ pre post,
    opening_tag element indent = pre +:+ data_attrs element +:+ ">" +:+ post.
Proof.
  unfold opening_tag. cbv zeta.
  set (c := t_class element). set (tag := get_element_tag c).
  set (classes := get_tailwind_classes element).
  destruct (String.eqb c "image").
  { eexists (indent_str indent +:+ "<" +:+ tag +:+ " src='https://picsum.photos/"
               +:+ pretty _ +:+ "/" +:+ pretty _
               +:+ "?random=1' alt='Placeholder' class='" +:+ classes +:+ "' "), nl.
    rewrite !append_assoc. reflexivity. }
  destruct (String.eqb c "button").
  { eexists (indent_str indent +:+ "<" +:+ tag +:+ " class='" +:+ classes +:+ "' "), _.
    rewrite !append_assoc. reflexivity. }
  destruct (String.eqb c "heading").
  { eexists (indent_str indent +:+ "<" +:+ tag +:+ " class='" +:+ classes +:+ "' "), _.
    rewrite !append_assoc. reflexivity. }
  destruct (String.eqb c "paragraph").
  { eexists (indent_str indent +:+ "<" +:+ tag +:+ " class='" +:+ classes +:+ "' "), _.
    rewrite !append_assoc. reflexivity. }
  destruct (String.eqb c "input").
  { eexists (indent_str indent +:+ "<" +:+ tag
               +:+ " type='text' placeholder='Enter text here...' class='"
               +:+ classes +:+ "' "), nl.
    rewrite !append_assoc. reflexivity. }
  destruct (String.eqb c "text" || String.eqb c "span").
  { eexists (indent_str indent +:+ "<" +:+ tag +:+ " class='" +:+ classes +:+ "' "), _.
    rewrite !append_assoc. reflexivity. }
  eexists (indent_str indent +:+ "<" +:+ tag +:+ " class='" +:+ classes +:+ "' "), _.
  rewrite !append_assoc. reflexivity.
Qed.

(** * The debug listing *)

Lemma Tree_ind' (P : Tree -> Prop) :
  (∀ c b i ks, Forall P ks -> P (Node c b i ks)) -> ∀ t, P t.
Proof.
  intros step. fix IH 1. intros [c b i ks]. apply step.
  induction ks as [|k ks IHks]; constructor; [apply IH|exact IHks].
Qed.

Lemma insert_sorted_str_perm {A} (key : A -> string) x (l : list A) :
  insert_sorted_str key x l ≡ₚ x :: l.
Proof.
  induction l as [|y l IH]; [done|]. simpl.
  destruct (String.leb (key x) (key y)); [done|]. rewrite IH. apply perm_swap.
Qed.

Lemma sorted_str_perm {A} (key : A -> string) (l : list A) : sorted_str key l ≡ₚ l.
Proof.
  induction l as [|x l IH]; [done|]. simpl.
  by rewrite insert_sorted_str_perm, IH.
Qed.

Lemma insert_sorted_str_fmap {A B} (f : A -> B) (key : B -> string) x (l : list A) :
  insert_sorted_str key (f x) (f <$> l) = f <$> insert_sorted_str (key ∘ f) x l.
Proof.
  induction l as [|y l IH]; [done|].
  rewrite fmap_cons. cbn [insert_sorted_str compose].
  destruct (String.leb (key (f x)) (key (f y))); [done|].
  rewrite fmap_cons. by rewrite IH.
Qed.

Lemma sorted_str_fmap {A B} (f : A -> B) (key : B -> string) (l : list A) :
  sorted_str key (f <$> l) = f <$> sorted_str (key ∘ f) l.
Proof.
  induction l as [|x l IH]; [done|].
  rewrite fmap_cons. cbn [sorted_str]. rewrite IH. apply insert_sorted_str_fmap.
Qed.

(** [pretty_print] in the form of the source: the line of the element, then
    the listings of the children sorted by label, two columns deeper. *)
Lemma pretty_print_eq element indent :
  pretty_print element indent =
    element_line element indent
      :: concat ((λ child, pretty_print child (2 + indent)%nat)
                   <$> sorted_str t_class (t_children element)).
Proof.
  destruct element as [c b i ks]. cbn [pretty_print t_children].
  rewrite (sorted_str_fmap (λ child, (child, pretty_print child))).
  rewrite <- list_fmap_compose. reflexivity.
Qed.

Lemma length_concat_perm {A} (l l' : list (list A)) :
  l ≡ₚ l' -> length (concat l) = length (concat l').
Proof. intros H. by rewrite H. Qed.

(** X23.  [pretty_print] prints one line per element of the tree, none left out
    and none twice. *)
Theorem pretty_print_line_count element indent :
  length (pretty_print element indent) = tree_size element.
Proof.
  revert indent. induction element as [c b i ks IH] using Tree_ind'.
  intros indent. rewrite pretty_print_eq. cbn [length tree_size t_children].
  f_equal.
  rewrite (length_concat_perm _
             ((λ child, pretty_print child (2 + indent)%nat) <$> ks)).
  2: { apply fmap_Permutation, sorted_str_perm. }
  induction IH as [|k ks Hk _ IHks]; [done|].
  rewrite !fmap_cons. cbn [concat foldr]. rewrite length_app, Hk. by rewrite IHks.
Qed.

(** * The threshold of [contains] *)

(** X6.  The overlap threshold is strict: a child with exactly three fifths of
    its area inside the other box is not contained, whatever its centre and
    the areas are. *)
Theorem contains_threshold_strict self child :
  disjoint_boxes child self = false ->
  0 < area child ->
  5 * intersection child self = 3 * area child ->
  contains self child = Ok false.
Proof.
  intros Hd Hpos Heq.
  destruct (contains self child) as [[]|e] eqn:Hc.
  - apply contains_true_Z in Hc as (_ & _ & _ & _ & Hlt). lia.
  - done.
  - apply contains_raise in Hc as [_ Hz]. lia.
Qed.

Lemma contains_threshold_strict_witness :
  contains (mkBBox 0 0 6 10) (mkBBox 0 0 10 10) = Ok false
  ∧ contains (mkBBox 0 0 6 20) (mkBBox 0 0 10 10) = Ok false.
Proof.
  split.
  - apply (contains_threshold_strict (mkBBox 0 0 6 10) (mkBBox 0 0 10 10));
      reflexivity.
  - apply (contains_threshold_strict (mkBBox 0 0 6 20) (mkBBox 0 0 10 10));
      reflexivity.
Defined.
